(** * Lattigo: diagonal encoding, Average and evaluation keys

    A shallow embedding of [ckks/linear_transform.go] and of the
    [rlwe.EvaluationKey] wrapper, with the properties their specification
    states.  Go values are modelled as the code has them: [int] is a
    64-bit two's-complement integer carried by [Z] with its wrap-around
    written out, a slice is a window (array, offset, length, capacity) on
    a backing array that lives in a store, a map is a [gmap], and a
    function that can panic runs in a state-and-panic monad. *)

From Stdlib Require Import ZArith Lia Bool List Strings.Byte.
From Stdlib Require Import Znumtheory Zmod.ZmodInv.
From stdpp Require Import base option list gmap.

#[local] Open Scope Z_scope.

(* ===================================================================== *)
(** * Part I: definitions                                                 *)
(* ===================================================================== *)

(** ** Go's [int] *)

Module GoInt.

Definition int_min : Z := - 2 ^ 63.
Definition int_max : Z := 2 ^ 63 - 1.

(** The values an [int] can hold. *)
Definition in_int (z : Z) : Prop := int_min <= z <= int_max.

(** Two's-complement wrap-around of a mathematical integer to 64 bits. *)
Definition wrap (z : Z) : Z := (z + 2 ^ 63) mod 2 ^ 64 - 2 ^ 63.

Definition add (a b : Z) : Z := wrap (a + b).
Definition sub (a b : Z) : Z := wrap (a - b).

End GoInt.

(** ** Panics and results *)

(** The ways the modelled functions stop abruptly.  The first four are Go
    run-time errors, the last two the explicit [panic] calls of [Average]:
    - [InvalidOperand]: panic("ctIn.Degree() != 1 or ctOut.Degree() != 1");
    - [InvalidParameter]: panic("cannot Average: batchSize must be smaller
      or equal to the number of slots"). *)
Inductive panic : Type :=
  | NegativeShift
  | SliceBounds
  | IndexOutOfRange
  | NilDereference
  | MakeSliceLen
  | InvalidOperand
  | InvalidParameter.

Inductive res (A : Type) : Type :=
  | Ok (a : A)
  | Panic (p : panic).
Arguments Ok {A} a.
Arguments Panic {A} p.

(** [x << k] on [int]: a negative count is a run-time panic, the bits
    shifted past bit 63 are lost. *)
Definition shl (x k : Z) : res Z :=
  if k <? 0 then Panic NegativeShift else Ok (GoInt.wrap (Z.shiftl x k)).

(** State-and-panic monad: the state at the time of a panic is kept, as
    the Go heap is. *)
Definition M (S A : Type) : Type := S -> S * res A.

Definition ret {S A} (a : A) : M S A := fun s => (s, Ok a).

Definition bind {S A B} (m : M S A) (k : A -> M S B) : M S B :=
  fun s =>
    match m s with
    | (s', Ok a) => k a s'
    | (s', Panic p) => (s', Panic p)
    end.

Definition lift {S A} (r : res A) : M S A := fun s => (s, r).

Definition throw {S A} (p : panic) : M S A := fun s => (s, Panic p).

Notation "'let*' x ':=' m 'in' k" := (bind m (fun x => k))
  (at level 10, x name, m at level 100, k at level 200).
Notation "m ';;' k" := (bind m (fun _ => k))
  (at level 100, k at level 200, right associativity).

(** ** Slices and their backing arrays *)

(** The store of backing arrays, by array identifier. *)
Abbreviation heap T := (gmap nat (list T)).

Section Slices.
Context {T : Type}.

(** A slice value: a window on the array [sbase], starting at [soff],
    with [slen] visible elements out of [scap] reachable ones. *)
Record slice : Type := Slice {
  sbase : nat;
  soff : nat;
  slen : nat;
  scap : nat
}.

(** The nil slice: length and capacity 0. *)
Definition nil_slice : slice := Slice 0 0 0 0.

Definition len (s : slice) : Z := Z.of_nat (slen s).
Definition cap (s : slice) : Z := Z.of_nat (scap s).

Definition array (h : heap T) (b : nat) : list T := default [] (h !! b).

(** The elements a slice shows. *)
Definition elems (h : heap T) (s : slice) : list T :=
  take (slen s) (drop (soff s) (array h (sbase s))).

(** A slice fits the store: its window lies inside its array, and its
    capacity is an [int]. *)
Definition slice_ok (h : heap T) (s : slice) : Prop :=
  (slen s <= scap s)%nat /\
  (soff s + scap s <= length (array h (sbase s)))%nat /\
  cap s <= GoInt.int_max.

(** [s[:hi]]: the bound is checked against the capacity. *)
Definition slice_to (s : slice) (hi : Z) : res slice :=
  if (0 <=? hi) && (hi <=? cap s)
  then Ok (Slice (sbase s) (soff s) (Z.to_nat hi) (scap s))
  else Panic SliceBounds.

(** [s[lo:]]: the bound is checked against the length. *)
Definition slice_from (s : slice) (lo : Z) : res slice :=
  if (0 <=? lo) && (lo <=? len s)
  then Ok (Slice (sbase s) (soff s + Z.to_nat lo)
                 (slen s - Z.to_nat lo) (scap s - Z.to_nat lo))
  else Panic SliceBounds.

(** [copy(dst, src)]: min(len(dst), len(src)) elements are written into
    the array of [dst]; the number copied is returned. *)
Definition copy (dst src : slice) : M (heap T) Z :=
  fun h =>
    let n := Nat.min (slen dst) (slen src) in
    let data := take n (elems h src) in
    (alter (list_inserts (soff dst) data) (sbase dst) h, Ok (Z.of_nat n)).

(** [make([]T, n)] with zero value [zero]: a fresh array. *)
Definition make (zero : T) (n : Z) : M (heap T) slice :=
  fun h =>
    if (n <? 0) || (GoInt.int_max <? n) then (h, Panic MakeSliceLen)
    else
      let b := fresh (dom h) in
      (<[b := replicate (Z.to_nat n) zero]> h,
       Ok (Slice b 0 (Z.to_nat n) (Z.to_nat n))).

End Slices.

(** ** The linear-transform encoder (ckks/linear_transform.go) *)

(** What the encoder consumes from the embedded [*Encoder]: the element
    type's companions, the slot bound of the parameters and the [Embed]
    primitive.  [Embed values logSlots scale montgomery output] gives the
    polynomial written and the error returned. *)
Class Encoder (T : Type) : Type := {
  Scale : Type;
  Poly : Type;
  EmbedError : Type;
  zero : T;
  MaxSlots : Z;
  Embed : list T -> Z -> Scale -> bool -> Poly -> Poly * option EmbedError
}.

Section LinearTransformEncoder.
Context {T : Type} {ecd : Encoder T}.

(** The [error] values the two encoding methods return. *)
Inductive error : Type :=
  | DiagonalNotFound (i : Z)
  | EmbedFailed (e : EmbedError).

(** [type LinearTransformEncoder[T] struct { *Encoder; diagonals map[int][]T;
    values []T }]. *)
Record LinearTransformEncoder : Type := {
  diagonals : gmap Z slice;
  values : slice
}.

(** [NewLinearTransformEncoder]. *)
Definition NewLinearTransformEncoder (diags : gmap Z slice)
  : M (heap T) LinearTransformEncoder :=
  let* buf := make zero MaxSlots in
  ret {| diagonals := diags; values := buf |}.

(** [NonZeroDiagonals].  Modelled from the spec: [utils.GetKeys] is not
    among the sources; it is taken to return the keys of the mapping, each
    once, in the order of [map_to_list]. *)
Definition NonZeroDiagonals (l : LinearTransformEncoder) : list Z :=
  (map_to_list (diagonals l)).*1.

(** The call [Embed(vals, logSlots, scale, true, output)] on the elements
    the slice [vals] shows. *)
Definition embed (vals : slice) (logSlots : Z) (scale : Scale) (output : Poly)
  : M (heap T) (Poly * option error) :=
  fun h =>
    let '(out, err) := Embed (elems h vals) logSlots scale true output in
    (h, Ok (out, EmbedFailed <$> err)).

(** [EncodeLinearTransformDiagonalNaive]. *)
Definition EncodeLinearTransformDiagonalNaive (l : LinearTransformEncoder)
    (i : Z) (scale : Scale) (LogSlots : Z) (output : Poly)
  : M (heap T) (Poly * option error) :=
  match diagonals l !! i with
  | Some diag => embed diag LogSlots scale output
  | None => ret (output, Some (DiagonalNotFound i))
  end.

(** [EncodeLinearTransformDiagonal] up to the call of [Embed] (lines 55 to
    80): the slice [values[:slots]] that is handed to [Embed]. *)
Definition rotated_values (l : LinearTransformEncoder) (i rot logSlots : Z)
  : M (heap T) slice :=
  let* slots := lift (shl 1 logSlots) in
  let v := match diagonals l !! i with
           | Some v => v
           | None => default nil_slice (diagonals l !! GoInt.sub i slots)
           end in
  let rot := Z.land rot (GoInt.sub slots 1) in
  let* vals :=
    if negb (rot =? 0) then
      let vals := values l in
      (if slots >=? rot then
         let* d := lift (slice_to vals (GoInt.sub slots rot)) in
         let* s := lift (slice_from v rot) in
         copy d s ;;
         let* d := lift (slice_from vals (GoInt.sub slots rot)) in
         let* s := lift (slice_to v rot) in
         copy d s
       else
         let* d := lift (slice_from vals (GoInt.sub slots rot)) in
         copy d v) ;;
      ret vals
    else
      lift (slice_to v slots) in
  lift (slice_to vals slots).

(** [EncodeLinearTransformDiagonal]. *)
Definition EncodeLinearTransformDiagonal (l : LinearTransformEncoder)
    (i rot : Z) (scale : Scale) (logSlots : Z) (output : Poly)
  : M (heap T) (Poly * option error) :=
  let* arg := rotated_values l i rot logSlots in
  embed arg logSlots scale output.

(** [rotated_values] with the branch taken when [slots < rot] replaced by
    an arbitrary computation [alt]. *)
Definition rotated_values_alt (alt : M (heap T) Z)
    (l : LinearTransformEncoder) (i rot logSlots : Z)
  : M (heap T) slice :=
  let* slots := lift (shl 1 logSlots) in
  let v := match diagonals l !! i with
           | Some v => v
           | None => default nil_slice (diagonals l !! GoInt.sub i slots)
           end in
  let rot := Z.land rot (GoInt.sub slots 1) in
  let* vals :=
    if negb (rot =? 0) then
      let vals := values l in
      (if slots >=? rot then
         let* d := lift (slice_to vals (GoInt.sub slots rot)) in
         let* s := lift (slice_from v rot) in
         copy d s ;;
         let* d := lift (slice_from vals (GoInt.sub slots rot)) in
         let* s := lift (slice_to v rot) in
         copy d s
       else alt) ;;
      ret vals
    else
      lift (slice_to v slots) in
  lift (slice_to vals slots).

End LinearTransformEncoder.

(** ** Ciphertexts and the ring (consumed by [Average]) *)

(** [ring.Poly]: one row of [uint64] coefficients per RNS limb. *)
Record RingPoly : Type := { Coeffs : list (list Z) }.

(** Modelled from the spec: [rlwe.Ciphertext] and its accessors [Degree]
    and [Level] belong to package rlwe, whose file is not among the
    sources.  A ciphertext carries its
    polynomial components [Value] (degree + 1 of them, each with one
    coefficient row per RNS limb up to its level) and the log-slot-count
    [LogSlots] of its meta data. *)
Record Ciphertext : Type := {
  Value : list RingPoly;
  LogSlots : Z
}.

(** [a[i]] on a list standing for a slice or an array. *)
Definition index {A} (a : list A) (i : Z) : res A :=
  if i <? 0 then Panic IndexOutOfRange
  else match a !! Z.to_nat i with
       | Some x => Ok x
       | None => Panic IndexOutOfRange
       end.

(** [a[:hi]] on a list whose capacity is its length. *)
Definition prefix_to {A} (a : list A) (hi : Z) : res (list A) :=
  if (0 <=? hi) && (hi <=? Z.of_nat (length a))
  then Ok (take (Z.to_nat hi) a)
  else Panic SliceBounds.

Definition Degree (ct : Ciphertext) : Z := Z.of_nat (length (Value ct)) - 1.

Definition Level (ct : Ciphertext) : res Z :=
  match index (Value ct) 0 with
  | Ok p => Ok (Z.of_nat (length (Coeffs p)) - 1)
  | Panic e => Panic e
  end.

(** Ciphertexts are handled through pointers: the store maps a pointer to
    the ciphertext it points to; a pointer outside the store is nil.  The
    two pointers that [Average] receives may be equal; two different
    ciphertexts are taken not to share coefficient rows. *)
Abbreviation store := (gmap nat Ciphertext).

Definition load (p : nat) : M store Ciphertext :=
  fun st => match st !! p with
            | Some ct => (st, Ok ct)
            | None => (st, Panic NilDereference)
            end.

(** [uint64] arithmetic. *)
Definition uint64 (z : Z) : Z := z mod 2 ^ 64.
Definition usub (a b : Z) : Z := uint64 (a - b).

(** Modelled from the spec: [ring.ModExp] is not among the sources; it is the
    modular exponentiation, [x^e mod p]. *)
Definition ModExp (x e p : Z) : Z := x ^ e mod p.

(** The Montgomery radix of [uint64] limbs. *)
Definition MontgomeryRadix : Z := 2 ^ 64.

(** Modelled from the spec: [ring.MForm] is not among the sources; it converts
    [a] into Montgomery form modulo [q], that is [a * R mod q] for the
    radix [R]; the third argument is the precomputed reduction constant,
    which does not change the value. *)
Definition MForm (a q : Z) (u : list Z) : Z := a * MontgomeryRadix mod q.

(** Modelled from the spec: the Montgomery representation of one. *)
Definition MontgomeryOne (q : Z) : Z := MontgomeryRadix mod q.

(** What [Average] consumes from its evaluator: the sub-rings of
    [eval.params.RingQ()], the limb-wise scalar multiplication
    [s.MulScalarMontgomery(p1, scalar, p2)] (the new content of [p2]) and
    [eval.InnerSum(ctIn, batchSize, n, ctOut)]. *)
Class Evaluator : Type := {
  SubRing : Type;
  Modulus : SubRing -> Z;
  BRedConstant : SubRing -> list Z;
  SubRings : list SubRing;
  MulScalarMontgomery : SubRing -> list Z -> Z -> list Z -> list Z;
  InnerSum : nat -> Z -> Z -> nat -> M store unit
}.

Section Average.
Context {eval : Evaluator}.

(** Lines 116 and 117: the scalar [invN] of the limb [s]. *)
Definition invN (n : Z) (s : SubRing) : Z :=
  MForm (ModExp (uint64 n) (usub (Modulus s) 2) (Modulus s))
        (Modulus s) (BRedConstant s).

(** [s.MulScalarMontgomery(ctIn.Value[c].Coeffs[i], invN,
    ctOut.Value[c].Coeffs[i])]: both rows are read through the pointers,
    then the row of [ctOut] is overwritten. *)
Definition scale_limb (ctIn ctOut : nat) (c i : Z) (s : SubRing) (k : Z)
  : M store unit :=
  let* cin := load ctIn in
  let* pin := lift (index (Value cin) c) in
  let* p1 := lift (index (Coeffs pin) i) in
  let* cout := load ctOut in
  let* pout := lift (index (Value cout) c) in
  let* p2 := lift (index (Coeffs pout) i) in
  let row := MulScalarMontgomery s p1 k p2 in
  let pout' := {| Coeffs := <[Z.to_nat i := row]> (Coeffs pout) |} in
  let cout' := {| Value := <[Z.to_nat c := pout']> (Value cout);
                  LogSlots := LogSlots cout |} in
  fun st => (<[ctOut := cout']> st, Ok tt).

(** The loop of lines 114 to 121, over the sub-rings [ss] from index [i]. *)
Fixpoint scale_limbs (ctIn ctOut : nat) (n : Z) (i : Z) (ss : list SubRing)
  : M store unit :=
  match ss with
  | [] => ret tt
  | s :: ss' =>
      let k := invN n s in
      scale_limb ctIn ctOut 0 i s k ;;
      scale_limb ctIn ctOut 1 i s k ;;
      scale_limbs ctIn ctOut n (i + 1) ss'
  end.

(** [Average].  The operands of [||] are evaluated lazily, as Go does. *)
Definition Average (ctIn : nat) (logBatchSize : Z) (ctOut : nat)
  : M store unit :=
  let* cin := load ctIn in
  let* bad :=
    if negb (Degree cin =? 1) then ret true
    else let* cout := load ctOut in ret (negb (Degree cout =? 1)) in
  if (bad : bool) then
    throw InvalidOperand
  else if logBatchSize >? LogSlots cin then
    throw InvalidParameter
  else
    let* lin := lift (Level cin) in
    let* cout := load ctOut in
    let* lout := lift (Level cout) in
    let level := Z.min lin lout in
    let* n := lift (shl 1 (GoInt.sub (LogSlots cin) logBatchSize)) in
    let* ss := lift (prefix_to SubRings (GoInt.add level 1)) in
    scale_limbs ctIn ctOut n 0 ss ;;
    let* batchSize := lift (shl 1 logBatchSize) in
    InnerSum ctOut batchSize n ctOut.

(** The pre-scaling as the specification words it: every limb below
    [k] of a component of [ctIn] is multiplied by the Montgomery-form
    inverse of [n] modulo that limb's prime and written over the same limb
    of [ctOut]; the other limbs of [ctOut] stay. *)
Definition scaled_rows (n : Z) (k : nat) (rin rout : list (list Z))
  : list (list Z) :=
  imap (fun i p2 =>
          if decide (i < k)%nat then
            match SubRings !! i, rin !! i with
            | Some s, Some p1 => MulScalarMontgomery s p1 (invN n s) p2
            | _, _ => p2
            end
          else p2) rout.

Definition scaled_ct (n : Z) (k : nat) (cin cout : Ciphertext) : Ciphertext :=
  {| Value :=
       imap (fun c pout =>
               match Value cin !! c with
               | Some pin =>
                   if decide (c < 2)%nat
                   then {| Coeffs := scaled_rows n k (Coeffs pin) (Coeffs pout) |}
                   else pout
               | None => pout
               end) (Value cout);
     LogSlots := LogSlots cout |}.

(** Every component of [ct] has the limbs [0 .. level]. *)
Definition limbs_upto (level : Z) (ct : Ciphertext) : Prop :=
  Forall (fun p => level < Z.of_nat (length (Coeffs p))) (Value ct).

End Average.

(** ** Evaluation keys (package rlwe) *)

(** What [EvaluationKey] consumes from the embedded [GadgetCiphertext],
    whose file is not among the sources: its constructor, equality, deep copy
    and binary encoding.  [gct_Read g data] is [g.Read(data)]: the buffer
    as written, the number of bytes written and the error; [gct_Write g
    data] is [g.Write(data)]: the receiver as decoded, the number of bytes
    read and the error. *)
Class GadgetCiphertextOps (G Params Err : Type) : Type := {
  DecompRNS : Params -> Z -> Z -> Z;
  DecompPw2 : Params -> Z -> Z -> Z;
  NewGadgetCiphertext : Params -> Z -> Z -> Z -> Z -> G;
  gct_Equals : G -> G -> bool;
  gct_CopyNew : G -> G;
  gct_MarshalBinarySize : G -> Z;
  gct_Read : G -> list Byte.byte -> list Byte.byte * Z * option Err;
  gct_Write : G -> list Byte.byte -> G * Z * option Err
}.

Module EvaluationKey.
Section EvaluationKey.
Context {G Params Err : Type} {ops : GadgetCiphertextOps G Params Err}.

(** [type EvaluationKey struct { GadgetCiphertext }]. *)
Record EvaluationKey : Type := { GadgetCiphertext : G }.

Definition NewEvaluationKey (params : Params) (levelQ levelP : Z)
  : EvaluationKey :=
  {| GadgetCiphertext :=
       NewGadgetCiphertext params levelQ levelP
         (DecompRNS params levelQ levelP) (DecompPw2 params levelQ levelP) |}.

Definition Equals (evk other : EvaluationKey) : bool :=
  gct_Equals (GadgetCiphertext evk) (GadgetCiphertext other).

Definition CopyNew (evk : EvaluationKey) : EvaluationKey :=
  {| GadgetCiphertext := gct_CopyNew (GadgetCiphertext evk) |}.

Definition MarshalBinarySize (evk : EvaluationKey) : Z :=
  gct_MarshalBinarySize (GadgetCiphertext evk).

(** [Read]: encodes into [data]; the buffer as written comes first. *)
Definition Read (evk : EvaluationKey) (data : list Byte.byte)
  : list Byte.byte * Z * option Err :=
  gct_Read (GadgetCiphertext evk) data.

(** [make([]byte, n)]. *)
Definition make_bytes (n : Z) : res (list Byte.byte) :=
  if (n <? 0) || (GoInt.int_max <? n) then Panic MakeSliceLen
  else Ok (replicate (Z.to_nat n) Byte.x00).

(** [MarshalBinary]. *)
Definition MarshalBinary (evk : EvaluationKey)
  : res (list Byte.byte * option Err) :=
  match make_bytes (MarshalBinarySize evk) with
  | Ok data => let '(data, _, err) := Read evk data in Ok (data, err)
  | Panic p => Panic p
  end.

(** [Write]: decodes [data] into the receiver. *)
Definition Write (evk : EvaluationKey) (data : list Byte.byte)
  : EvaluationKey * Z * option Err :=
  let '(g, ptr, err) := gct_Write (GadgetCiphertext evk) data in
  ({| GadgetCiphertext := g |}, ptr, err).

(** [UnmarshalBinary]. *)
Definition UnmarshalBinary (evk : EvaluationKey) (data : list Byte.byte)
  : EvaluationKey * option Err :=
  let '(evk', _, err) := Write evk data in (evk', err).

End EvaluationKey.
End EvaluationKey.

(** ** Test vectors *)

Module TestVectors.

(** An encoder over integers whose [Embed] multiplies by the scale. *)
Definition encoder : Encoder Z := {|
  Scale := Z;
  Poly := list Z;
  EmbedError := unit;
  zero := 0;
  MaxSlots := 8;
  Embed := fun vals _ scale _ _ => (map (Z.mul scale) vals, None)
|}.

(** The array 0 holds the diagonal [1, 2, 3, 4], the array 1 is the
    scratch buffer, the arrays 2 and 3 hold a diagonal of eight elements
    and one of two. *)
Definition h0 : heap Z :=
  {[ 0%nat := [1; 2; 3; 4];
     1%nat := [0; 0; 0; 0; 0; 0; 0; 0];
     2%nat := [1; 2; 3; 4; 5; 6; 7; 8];
     3%nat := [1; 2] ]}.

Definition v0 : slice := Slice 0 0 4 4.
Definition v_long : slice := Slice 2 0 8 8.
Definition v_short : slice := Slice 3 0 2 2.
Definition scratch : slice := Slice 1 0 8 8.

Definition l0 : LinearTransformEncoder :=
  {| diagonals := {[ 0 := v0 ]}; values := scratch |}.

(** The diagonal is stored under [-4] only. *)
Definition l_alias : LinearTransformEncoder :=
  {| diagonals := {[ -4 := v0 ]}; values := scratch |}.

(** A diagonal of eight elements, and one of two, for four slots. *)
Definition l_long : LinearTransformEncoder :=
  {| diagonals := {[ 0 := v_long ]}; values := scratch |}.

Definition l_short : LinearTransformEncoder :=
  {| diagonals := {[ 0 := v_short ]}; values := scratch |}.

Definition l_empty : LinearTransformEncoder :=
  {| diagonals := ∅; values := scratch |}.

(** An evaluator over the primes 17 and 97. *)
Definition evaluator : Evaluator := {|
  SubRing := Z;
  Modulus := fun q => q;
  BRedConstant := fun _ => [];
  SubRings := [17; 97];
  MulScalarMontgomery := fun q p1 k _ =>
    map (fun x => (x * k * ModExp MontgomeryRadix (q - 2) q) mod q) p1;
  InnerSum := fun _ _ _ _ => ret tt
|}.

Definition ct_in : Ciphertext :=
  {| Value := [ {| Coeffs := [[8; 4]; [2; 6]] |};
                {| Coeffs := [[12; 16]; [10; 14]] |} ];
     LogSlots := 3 |}.

Definition ct_out : Ciphertext :=
  {| Value := [ {| Coeffs := [[0; 0]; [0; 0]] |};
                {| Coeffs := [[0; 0]; [0; 0]] |} ];
     LogSlots := 3 |}.

(** A ciphertext of degree 2. *)
Definition ct_deg2 : Ciphertext :=
  {| Value := [ {| Coeffs := [[1]] |}; {| Coeffs := [[2]] |};
                {| Coeffs := [[3]] |} ];
     LogSlots := 3 |}.

Definition st0 : store := {[ 0%nat := ct_in; 1%nat := ct_out; 2%nat := ct_deg2 ]}.

End TestVectors.

(** ** Footprints *)

(** The computation [m] writes the array [b0] only, and keeps its length:
    whatever the store and the outcome, the other arrays are as they were. *)
Definition writes_only {T A : Type} (b0 : nat) (m : M (heap T) A) : Prop :=
  forall (h : heap T) (b : nat),
    (b <> b0 -> fst (m h) !! b = h !! b) /\
    length (array (fst (m h)) b) = length (array h b).

(** ** Further test vectors *)

Module TestVectors2.

(** A store whose scratch array holds nines, left by earlier calls. *)
Definition h_stale : heap Z :=
  {[ 1%nat := [9; 9; 9; 9; 9; 9; 9; 9]; 3%nat := [1; 2] ]}.

(** Two pointers to equal ciphertexts. *)
Definition st_pair : store :=
  {[ 0%nat := TestVectors.ct_in; 1%nat := TestVectors.ct_in ]}.

(** A ciphertext at level 2, above the two sub-rings of the evaluator. *)
Definition ct_three : Ciphertext :=
  {| Value := [ {| Coeffs := [[1]; [2]; [3]] |}; {| Coeffs := [[4]; [5]; [6]] |} ];
     LogSlots := 3 |}.

Definition st_three : store := {[ 0%nat := ct_three; 1%nat := ct_three ]}.

End TestVectors2.

(* ===================================================================== *)
(** * Part II: lemmas and theorems                                        *)
(* ===================================================================== *)

(** ** Go integers *)

Lemma wrap_small (z : Z) : GoInt.in_int z -> GoInt.wrap z = z.
Proof.
  unfold GoInt.in_int, GoInt.int_min, GoInt.int_max, GoInt.wrap. intros Hz.
  rewrite Z.mod_small; lia.
Qed.

Lemma pow2_le_int (k : Z) : 0 <= k <= 62 -> 0 < 2 ^ k <= 2 ^ 62.
Proof.
  intros Hk. split; [apply Z.pow_pos_nonneg; lia|].
  apply Z.pow_le_mono_r; lia.
Qed.

Lemma shl_pow2 (k : Z) : 0 <= k <= 62 -> shl 1 k = Ok (2 ^ k).
Proof.
  intros Hk. unfold shl.
  destruct (Z.ltb_spec k 0) as [?|_]; [lia|].
  rewrite Z.shiftl_1_l, wrap_small; [done|].
  pose proof (pow2_le_int k Hk).
  unfold GoInt.in_int, GoInt.int_min, GoInt.int_max. lia.
Qed.

Lemma shl_negative (x k : Z) : k < 0 -> shl x k = Panic NegativeShift.
Proof. intros Hk. unfold shl. destruct (Z.ltb_spec k 0); [done|lia]. Qed.

Lemma sub_small (a b : Z) : GoInt.in_int (a - b) -> GoInt.sub a b = a - b.
Proof. apply wrap_small. Qed.

Lemma sub_wrap_r (a b : Z) : GoInt.sub a (GoInt.wrap b) = GoInt.sub a b.
Proof.
  unfold GoInt.sub, GoInt.wrap. f_equal.
  set (m := 2 ^ 63). assert (Hm : 2 ^ 64 = 2 * m) by reflexivity.
  rewrite Hm.
  replace (a - ((b + m) mod (2 * m) - m) + m)
    with (a + 2 * m - (b + m) mod (2 * m)) by lia.
  rewrite Zminus_mod_idemp_r. f_equal. lia.
Qed.

Lemma mask_mod (rot k : Z) :
  0 <= k <= 62 -> Z.land rot (GoInt.sub (2 ^ k) 1) = rot mod 2 ^ k.
Proof.
  intros Hk. pose proof (pow2_le_int k Hk).
  rewrite sub_small by (unfold GoInt.in_int, GoInt.int_min, GoInt.int_max; lia).
  rewrite <- Z.land_ones by lia. f_equal.
  rewrite Z.ones_equiv. lia.
Qed.

(** Case analysis on the integer comparisons of a goal. *)
Ltac zcases :=
  repeat match goal with
         | |- context [?a <=? ?b] => destruct (Z.leb_spec a b)
         | |- context [?a <? ?b] => destruct (Z.ltb_spec a b)
         | |- context [?a =? ?b] => destruct (Z.eqb_spec a b)
         | |- context [?a >=? ?b] => rewrite (Z.geb_leb a b)
         | |- context [?a >? ?b] => rewrite (Z.gtb_ltb a b)
         end; simpl.

Section EncoderFacts.
Context {T : Type} {ecd : Encoder T}.
Implicit Types (l : LinearTransformEncoder) (h : heap T) (v : slice).

Lemma slice_to_nil (hi : Z) : 0 < hi -> slice_to nil_slice hi = Panic SliceBounds.
Proof.
  intros Hhi. unfold slice_to, nil_slice, cap; simpl.
  zcases; try done; lia.
Qed.

Lemma slice_from_nil (lo : Z) : 0 < lo -> slice_from nil_slice lo = Panic SliceBounds.
Proof.
  intros Hlo. unfold slice_from, nil_slice, len; simpl.
  zcases; try done; lia.
Qed.

Lemma slice_to_panic v (hi : Z) (p : panic) :
  slice_to v hi = Panic p -> p = SliceBounds.
Proof. unfold slice_to. destruct (_ && _); congruence. Qed.

Lemma slice_from_panic v (lo : Z) (p : panic) :
  slice_from v lo = Panic p -> p = SliceBounds.
Proof. unfold slice_from. destruct (_ && _); congruence. Qed.

Lemma slice_to_full v : (slen v <= scap v)%nat -> slice_to v (len v) = Ok v.
Proof.
  intros Hv. unfold slice_to, len, cap.
  zcases; try lia. rewrite Nat2Z.id. by destruct v.
Qed.

Lemma masked_range (rot k : Z) :
  0 <= k <= 62 ->
  let r := Z.land rot (GoInt.sub (2 ^ k) 1) in
  r = rot mod 2 ^ k /\ 0 <= r < 2 ^ k.
Proof.
  intros Hk r. unfold r. rewrite mask_mod by done.
  split; [done|]. apply Z.mod_pos_bound, Z.pow_pos_nonneg; lia.
Qed.

(** C8, amended.  In [EncodeLinearTransformDiagonal], for
    [0 <= logSlots <= 62], so that [slots = 2^logSlots] is a power of two
    that an [int] holds, and every integer [rot] (negative ones
    included), the masked value [rot & (slots - 1)] is [rot mod slots]
    and lies in [[0, slots)]; hence [slots >= rot] holds whenever the
    masked [rot] is not 0, and the branch of [slots < rot] is never run:
    whatever computation stands in its place, the function is the same. *)
Theorem masked_rotation_skips_else_branch l (i rot logSlots : Z)
    (alt : M (heap T) Z) h :
  0 <= logSlots <= 62 ->
  let slots := 2 ^ logSlots in
  let r := Z.land rot (GoInt.sub slots 1) in
  shl 1 logSlots = Ok slots /\
  r = rot mod slots /\
  0 <= r < slots /\
  (r <> 0 -> (slots >=? r) = true) /\
  rotated_values_alt alt l i rot logSlots h = rotated_values l i rot logSlots h.
Proof.
  intros Hk slots r.
  destruct (masked_range rot logSlots Hk) as [Hr Hrange].
  fold slots in Hr, Hrange. fold r in Hr, Hrange.
  assert (Hge : (slots >=? r) = true) by (apply Z.geb_le; lia).
  repeat split; try done; try lia.
  - by apply shl_pow2.
  - unfold rotated_values_alt, rotated_values, bind, lift.
    rewrite (shl_pow2 logSlots Hk). fold slots. fold r. by rewrite Hge.
Qed.

(** C7. For an index [i] absent from the diagonal mapping,
    [EncodeLinearTransformDiagonalNaive] returns the error
    DiagonalNotFound for [i], whatever else the mapping holds (the alias
    [i - slots] is not tried), and leaves the output polynomial and the
    store as they were. *)
Theorem naive_missing_diagonal l (i : Z) (scale : Scale) (logSlots : Z)
    (output : Poly) h :
  diagonals l !! i = None ->
  EncodeLinearTransformDiagonalNaive l i scale logSlots output h
  = (h, Ok (output, Some (DiagonalNotFound i))).
Proof.
  intros Hi. unfold EncodeLinearTransformDiagonalNaive. by rewrite Hi.
Qed.

(** C6. For a diagonal mapping that holds the index [i - slots]
    ([slots = 2^logSlots]; the subtraction is Go's, on [int]) but not [i],
    and every [rot], [scale], [logSlots] and [output],
    [EncodeLinearTransformDiagonal] called with [i] gives what it gives
    when called with [i - slots]: the same store, output polynomial and
    error (or the same panic). *)
Theorem alias_index_equivalent l (i rot : Z) (scale : Scale) (logSlots : Z)
    (output : Poly) h :
  diagonals l !! i = None ->
  is_Some (diagonals l !! GoInt.sub i (2 ^ logSlots)) ->
  EncodeLinearTransformDiagonal l i rot scale logSlots output h
  = EncodeLinearTransformDiagonal l (GoInt.sub i (2 ^ logSlots)) rot scale
      logSlots output h.
Proof.
  intros Hi [v Hv].
  unfold EncodeLinearTransformDiagonal, rotated_values, bind, lift.
  destruct (Z.lt_ge_cases logSlots 0) as [Hneg|Hk].
  - by rewrite !shl_negative.
  - unfold shl. destruct (Z.ltb_spec logSlots 0); [lia|].
    rewrite Z.shiftl_1_l, Hi, sub_wrap_r, Hv. done.
Qed.

(** C10, amended.  When neither [i] nor [i - slots] is in the diagonal
    mapping ([slots = 2^logSlots], [0 <= logSlots <= 62]),
    [EncodeLinearTransformDiagonal] does not fail with DiagonalNotFound,
    and it does not return either: for every [rot] it panics with a
    slice-bounds run-time error, on [v[:slots]] when [rot mod slots = 0]
    and on [values[:slots-rot]] or on [v[rot:]] otherwise ([v] is the nil
    slice), before anything is copied or embedded; the store is
    unchanged. *)
Theorem absent_diagonal_panics l (i rot : Z) (scale : Scale) (logSlots : Z)
    (output : Poly) h :
  0 <= logSlots <= 62 ->
  diagonals l !! i = None ->
  diagonals l !! GoInt.sub i (2 ^ logSlots) = None ->
  EncodeLinearTransformDiagonal l i rot scale logSlots output h
  = (h, Panic SliceBounds).
Proof.
  intros Hk Hi Hj.
  destruct (masked_range rot logSlots Hk) as [_ Hr].
  unfold EncodeLinearTransformDiagonal, rotated_values, bind, lift.
  rewrite (shl_pow2 logSlots Hk), Hi, Hj. simpl.
  set (slots := 2 ^ logSlots) in *.
  set (r := Z.land rot (GoInt.sub slots 1)) in *.
  destruct (Z.eqb_spec r 0) as [Hz|Hnz]; simpl.
  - rewrite slice_to_nil by lia. done.
  - assert ((slots >=? r) = true) as -> by (apply Z.geb_le; lia).
    destruct (slice_to (values l) (GoInt.sub slots r)) as [d|p] eqn:Hd.
    + rewrite slice_from_nil by lia. done.
    + by rewrite (slice_to_panic _ _ _ Hd).
Qed.

(** C5, amended.  For a diagonal mapping that binds [i] to a vector of
    length exactly [slots = 2^logSlots] ([0 <= logSlots <= 62]), and every
    [scale] and [output], [EncodeLinearTransformDiagonal] with rotation 0
    gives what [EncodeLinearTransformDiagonalNaive] gives: the same call
    of [Embed], hence the same store, output polynomial and error. *)
Theorem unrotated_equals_naive l (i : Z) (scale : Scale) (logSlots : Z)
    (output : Poly) h v :
  0 <= logSlots <= 62 ->
  diagonals l !! i = Some v ->
  (slen v <= scap v)%nat ->
  len v = 2 ^ logSlots ->
  EncodeLinearTransformDiagonal l i 0 scale logSlots output h
  = EncodeLinearTransformDiagonalNaive l i scale logSlots output h.
Proof.
  intros Hk Hi Hcap Hlen.
  unfold EncodeLinearTransformDiagonal, EncodeLinearTransformDiagonalNaive.
  unfold rotated_values, bind, lift.
  rewrite (shl_pow2 logSlots Hk), Hi, Z.land_0_l. simpl.
  rewrite <- Hlen, !slice_to_full by done. done.
Qed.

End EncoderFacts.

Section CopyFacts.
Context {T : Type}.
Implicit Types (h : heap T) (v d s : slice) (xs : list T).

Lemma array_alter_inserts h (b k : nat) xs :
  array (alter (list_inserts k xs) b h) b = list_inserts k xs (array h b).
Proof.
  unfold array. rewrite lookup_alter_eq.
  destruct (h !! b); simpl; [done|]. by rewrite list_inserts_nil.
Qed.

Lemma array_alter_ne h (b b' : nat) (f : list T -> list T) :
  b <> b' -> array (alter f b h) b' = array h b'.
Proof. intros Hb. unfold array. by rewrite lookup_alter_ne. Qed.

Lemma elems_alter_ne h (b : nat) (f : list T -> list T) s :
  b <> sbase s -> elems (alter f b h) s = elems h s.
Proof. intros Hb. unfold elems. by rewrite array_alter_ne. Qed.

Lemma elems_length h s :
  slice_ok h s -> length (elems h s) = slen s.
Proof.
  intros (Hlen & Hfit & _). unfold elems.
  rewrite length_take, length_drop. lia.
Qed.

Lemma elems_lookup h s (p : nat) :
  (p < slen s)%nat -> elems h s !! p = array h (sbase s) !! (soff s + p)%nat.
Proof.
  intros Hp. unfold elems. rewrite lookup_take_lt by done. by rewrite lookup_drop.
Qed.

End CopyFacts.

Section Rotation.
Context {T : Type} {ecd : Encoder T}.
Implicit Types (l : LinearTransformEncoder) (h : heap T) (v : slice).

(** The store after the two copies of the rotation by [r] of the first
    [n] elements of [v] into the scratch slice [b]. *)
Lemma two_copies_lookup h v b (n r p : nat) :
  slice_ok h v -> slice_ok h b -> sbase v <> sbase b ->
  (0 < r < n)%nat -> (n <= slen v)%nat -> (n <= slen b)%nat -> (p < n)%nat ->
  let d1 := Slice (sbase b) (soff b) (n - r) (scap b) in
  let s1 := Slice (sbase v) (soff v + r) (slen v - r) (scap v - r) in
  let d2 := Slice (sbase b) (soff b + (n - r)) (slen b - (n - r)) (scap b - (n - r)) in
  let s2 := Slice (sbase v) (soff v) r (scap v) in
  let h1 := fst (copy d1 s1 h) in
  let h2 := fst (copy d2 s2 h1) in
  elems h2 (Slice (sbase b) (soff b) n (scap b)) !! p
  = elems h v !! ((p + r) mod n)%nat.
Proof.
  intros (Hvl & Hvf & _) (Hbl & Hbf & _) Hne Hr Hnv Hnb Hp d1 s1 d2 s2 h1 h2.
  assert (Hs1 : length (elems h s1) = (slen v - r)%nat).
  { unfold elems, s1; simpl. rewrite length_take, length_drop. lia. }
  assert (Hs2 : length (elems h1 s2) = r).
  { unfold elems, s2, h1, copy; simpl. rewrite array_alter_ne by done.
    rewrite length_take, length_drop. lia. }
  rewrite elems_lookup by (simpl; lia). simpl.
  unfold h2, copy; simpl. rewrite array_alter_inserts.
  unfold h1 at 2, copy; simpl. rewrite array_alter_inserts.
  set (data1 := take (Nat.min (n - r) (slen v - r)) (elems h s1)).
  set (data2 := take (Nat.min (slen b - (n - r)) r) (elems h1 s2)).
  assert (Hd1 : length data1 = (n - r)%nat) by (unfold data1; rewrite length_take; lia).
  assert (Hd2 : length data2 = r) by (unfold data2; rewrite length_take; lia).
  destruct (decide (p < n - r)%nat) as [Hlt|Hge].
  - rewrite list_lookup_inserts_lt by lia.
    rewrite list_lookup_inserts by lia.
    replace (soff b + p - soff b)%nat with p by lia.
    unfold data1. rewrite lookup_take_lt by lia.
    rewrite elems_lookup by (simpl; lia). simpl.
    rewrite Nat.mod_small by lia.
    rewrite elems_lookup by lia. f_equal. lia.
  - rewrite list_lookup_inserts by (rewrite ?length_inserts; lia).
    unfold data2. rewrite lookup_take_lt by lia.
    rewrite elems_lookup by (simpl; lia). simpl.
    unfold h1, copy; simpl. rewrite array_alter_ne by done.
    replace ((p + r) mod n)%nat with (p + r - n)%nat.
    2:{ apply Nat.mod_unique with 1%nat; lia. }
    rewrite elems_lookup by lia. f_equal. lia.
Qed.

Lemma slice_to_Ok v (hi : Z) :
  0 <= hi <= cap v ->
  slice_to v hi = Ok (Slice (sbase v) (soff v) (Z.to_nat hi) (scap v)).
Proof. intros Hhi. unfold slice_to. zcases; try done; lia. Qed.

Lemma slice_to_inv v (hi : Z) a :
  slice_to v hi = Ok a ->
  0 <= hi <= cap v /\ a = Slice (sbase v) (soff v) (Z.to_nat hi) (scap v).
Proof. unfold slice_to. zcases; intros Ha; try done. split; [lia|congruence]. Qed.

Lemma slice_from_Ok v (lo : Z) :
  0 <= lo <= len v ->
  slice_from v lo
  = Ok (Slice (sbase v) (soff v + Z.to_nat lo) (slen v - Z.to_nat lo)
              (scap v - Z.to_nat lo)).
Proof. intros Hlo. unfold slice_from. zcases; try done; lia. Qed.

Lemma slice_from_inv v (lo : Z) a :
  slice_from v lo = Ok a ->
  0 <= lo <= len v /\
  a = Slice (sbase v) (soff v + Z.to_nat lo) (slen v - Z.to_nat lo)
            (scap v - Z.to_nat lo).
Proof. unfold slice_from. zcases; intros Ha; try done. split; [lia|congruence]. Qed.

Lemma log_slots_bound h v (k : Z) :
  slice_ok h v -> 0 <= k -> 2 ^ k <= len v -> k <= 62.
Proof.
  intros (Hl & _ & Hc) Hk Hv. unfold len, cap, GoInt.int_max in *.
  destruct (Z.le_gt_cases k 62) as [|Hgt]; [done|].
  assert (2 ^ 63 <= 2 ^ k) by (apply Z.pow_le_mono_r; lia). lia.
Qed.

(** The unrotated case: the slice handed to [Embed] is [v[:slots][:slots]]. *)
Lemma rotated_values_zero l (i rot k : Z) h v :
  diagonals l !! i = Some v -> 0 <= k <= 62 ->
  rot mod 2 ^ k = 0 ->
  rotated_values l i rot k h
  = (h, match slice_to v (2 ^ k) with
        | Ok a => slice_to a (2 ^ k)
        | Panic p => Panic p
        end).
Proof.
  intros Hi Hk Hr. unfold rotated_values, bind, lift.
  rewrite (shl_pow2 k Hk), Hi, mask_mod, Hr by done. simpl.
  by destruct (slice_to v (2 ^ k)).
Qed.

(** The rotated case, step by step. *)
Lemma rotated_values_nonzero l (i rot k : Z) h v :
  diagonals l !! i = Some v -> 0 <= k <= 62 ->
  let slots := 2 ^ k in
  let r := rot mod slots in
  r <> 0 ->
  rotated_values l i rot k h
  = (let* d1 := lift (slice_to (values l) (slots - r)) in
     let* s1 := lift (slice_from v r) in
     copy d1 s1 ;;
     let* d2 := lift (slice_from (values l) (slots - r)) in
     let* s2 := lift (slice_to v r) in
     copy d2 s2 ;;
     lift (slice_to (values l) slots)) h.
Proof.
  intros Hi Hk slots r Hr.
  assert (Hrange : 0 <= r < slots) by (apply Z.mod_pos_bound, Z.pow_pos_nonneg; lia).
  pose proof (pow2_le_int k Hk) as Hpow. fold slots in Hpow.
  unfold rotated_values, bind, lift.
  rewrite (shl_pow2 k Hk), Hi, mask_mod by done. fold slots. fold r.
  destruct (Z.eqb_spec r 0) as [|_]; [done|]. simpl.
  assert ((slots >=? r) = true) as -> by (apply Z.geb_le; lia).
  rewrite sub_small by (unfold GoInt.in_int, GoInt.int_min, GoInt.int_max; lia).
  destruct (slice_to (values l) (slots - r)); [|done].
  destruct (slice_from v r); [|done]. simpl.
  destruct (slice_from (values l) (slots - r)); [|done].
  destruct (slice_to v r); [|done]. done.
Qed.

Lemma both_Some {A} (a b : option A) :
  a = b -> is_Some b -> exists x, a = Some x /\ b = Some x.
Proof. intros -> [x ->]. eauto. Qed.

(** C1. Rotation correctness.  For a diagonal mapping that binds [i] to
    a vector [v] of length at least [slots = 2^logSlots], and every [rot]:
    whenever [EncodeLinearTransformDiagonal] reaches the call of [Embed],
    the vector [out] it hands over has length [slots] and satisfies
    [out[p] = v[(p + rot mod slots) mod slots]] for every [p] in
    [[0, slots)]; and it does reach that call when the rotation is 0 or the
    scratch buffer holds [slots] elements ([logSlots] not negative).  The
    slices are those of a
    well-formed store, the scratch buffer being the full-length slice on an
    array of its own that the constructor allocates. *)
Theorem rotation_correct l (i rot logSlots : Z) h v :
  diagonals l !! i = Some v ->
  slice_ok h v ->
  slice_ok h (values l) ->
  slen (values l) = scap (values l) ->
  sbase v <> sbase (values l) ->
  2 ^ logSlots <= len v ->
  let slots := 2 ^ logSlots in
  (forall h' arg,
     rotated_values l i rot logSlots h = (h', Ok arg) ->
     len arg = slots /\
     forall p, 0 <= p < slots ->
       exists x,
         elems h' arg !! Z.to_nat p = Some x /\
         elems h v !! Z.to_nat ((p + rot mod slots) mod slots) = Some x) /\
  (0 <= logSlots ->
   rot mod slots = 0 \/ slots <= len (values l) ->
   exists h' arg, rotated_values l i rot logSlots h = (h', Ok arg)).
Proof.
  intros Hi Hv Hb Hfull Hne Hlen slots.
  destruct (Z.lt_ge_cases logSlots 0) as [Hneg|Hk0].
  { split; [|lia]. intros h' arg Hrun.
    unfold rotated_values, bind, lift in Hrun.
    by rewrite shl_negative in Hrun. }
  assert (Hk : 0 <= logSlots <= 62) by (split; [done|exact (log_slots_bound h v logSlots Hv Hk0 Hlen)]).
  pose proof (pow2_le_int logSlots Hk) as Hpow. fold slots in Hpow.
  assert (Hrange : 0 <= rot mod slots < slots) by (apply Z.mod_pos_bound; lia).
  pose proof Hv as (Hvl & Hvf & Hvc). pose proof Hb as (Hbl & Hbf & Hbc).
  unfold len, cap in *.
  destruct (Z.eq_dec (rot mod slots) 0) as [Hz|Hnz].
  - (* rot = 0: the diagonal itself *)
    rewrite (rotated_values_zero l i rot logSlots h v Hi Hk Hz). fold slots.
    rewrite slice_to_Ok by (unfold cap; lia).
    rewrite slice_to_Ok by (unfold cap; simpl; lia). split.
    + intros h' arg [= <- <-]. simpl. split; [lia|].
      intros p Hp. rewrite Hz, Z.add_0_r, Z.mod_small by lia.
      apply both_Some.
      * rewrite !elems_lookup by (simpl; lia). done.
      * apply lookup_lt_is_Some_2. rewrite elems_length by done. lia.
    + intros _ _. eauto.
  - (* rot <> 0: two copies into the scratch buffer *)
    rewrite (rotated_values_nonzero l i rot logSlots h v Hi Hk Hnz). fold slots.
    set (r := rot mod slots) in *. split.
    + intros h' arg Hrun. unfold bind, lift in Hrun.
      destruct (slice_to (values l) (slots - r)) as [d1|] eqn:Hd1; [|done].
      destruct (slice_from v r) as [s1|] eqn:Hs1; [|done]. simpl in Hrun.
      destruct (slice_from (values l) (slots - r)) as [d2|] eqn:Hd2; [|done].
      destruct (slice_to v r) as [s2|] eqn:Hs2; [|done]. simpl in Hrun.
      destruct (slice_to (values l) slots) as [a|] eqn:Ha; [|done].
      injection Hrun as <- <-.
      apply slice_to_inv in Hd1 as [_ ->], Hs2 as [_ ->], Ha as [Hcap ->].
      apply slice_from_inv in Hs1 as [_ ->], Hd2 as [_ ->].
      unfold cap in Hcap. simpl. split; [lia|]. intros p Hp.
      pose proof (two_copies_lookup h v (values l) (Z.to_nat slots) (Z.to_nat r)
                    (Z.to_nat p) Hv Hb Hne) as Hrot.
      simpl in Hrot. unfold copy in Hrot; simpl in Hrot.
      replace (Z.to_nat (slots - r)) with (Z.to_nat slots - Z.to_nat r)%nat by lia.
      replace (Z.to_nat ((p + r) mod slots))
        with ((Z.to_nat p + Z.to_nat r) mod Z.to_nat slots)%nat.
      2:{ rewrite <- Z2Nat.inj_add by lia. rewrite <- Z2Nat.inj_mod by lia. done. }
      apply both_Some; [apply Hrot; lia|].
      apply lookup_lt_is_Some_2. rewrite elems_length by done.
      pose proof (Nat.mod_upper_bound (Z.to_nat p + Z.to_nat r) (Z.to_nat slots)).
      lia.
    + intros _ [?|Hfit]; [done|]. unfold bind, lift.
      rewrite slice_to_Ok by (unfold cap; lia).
      rewrite slice_from_Ok by (unfold len; lia). simpl.
      rewrite slice_from_Ok by (unfold len; lia).
      rewrite slice_to_Ok by (unfold cap; lia). simpl.
      rewrite slice_to_Ok by (unfold cap; lia). eauto.
Qed.

End Rotation.

Section Constructor.
Context {T : Type} {ecd : Encoder T}.

(** The scratch buffer that the constructor allocates: a full-length slice
    on a fresh array, which no slice of the previous store is based on. *)
Lemma new_encoder_scratch (diags : gmap Z slice) (h h' : heap T) l :
  0 <= MaxSlots <= GoInt.int_max ->
  NewLinearTransformEncoder diags h = (h', Ok l) ->
  diagonals l = diags /\
  slice_ok h' (values l) /\
  slen (values l) = scap (values l) /\
  len (values l) = MaxSlots /\
  (sbase (values l) ∉ dom h) /\
  forall b, b ∈ dom h -> array h' b = array h b.
Proof.
  intros HM. unfold NewLinearTransformEncoder, bind, make, ret.
  destruct (Z.ltb_spec MaxSlots 0); [lia|].
  destruct (Z.ltb_spec GoInt.int_max MaxSlots); [lia|]. simpl.
  intros [= <- <-]. simpl.
  pose proof (is_fresh (dom h)) as Hfresh.
  repeat split; try done.
  - simpl. unfold array. rewrite lookup_insert_eq. simpl.
    rewrite length_replicate. lia.
  - unfold cap. simpl. lia.
  - unfold len. simpl. lia.
  - intros b Hb. unfold array. rewrite lookup_insert_ne; [done|].
    intros <-. done.
Qed.

End Constructor.

Section AverageFacts.
Context {eval : Evaluator}.
Implicit Types (st : store) (cin cout ct : Ciphertext).

Lemma load_Some st (p : nat) ct : st !! p = Some ct -> load p st = (st, Ok ct).
Proof. intros Hp. unfold load. by rewrite Hp. Qed.

(** C3.  For ciphertexts [ctIn] and [ctOut] and every
    [logBatchSize]: if [ctIn] or [ctOut] does not have degree 1, [Average]
    fails with InvalidOperand; if both have degree 1 and [logBatchSize]
    exceeds the log-slot-count of [ctIn], it fails with InvalidParameter;
    in both cases the store, and so [ctOut], is as it was. *)
Theorem average_precondition_failures (ctIn ctOut : nat) (logBatchSize : Z)
    st cin cout :
  st !! ctIn = Some cin ->
  st !! ctOut = Some cout ->
  (Degree cin <> 1 \/ Degree cout <> 1 ->
   Average ctIn logBatchSize ctOut st = (st, Panic InvalidOperand)) /\
  (Degree cin = 1 -> Degree cout = 1 -> logBatchSize > LogSlots cin ->
   Average ctIn logBatchSize ctOut st = (st, Panic InvalidParameter)).
Proof.
  intros Hin Hout. unfold Average, bind, throw, ret.
  rewrite (load_Some _ _ _ Hin). split.
  - intros Hdeg. destruct (Z.eqb_spec (Degree cin) 1) as [Hd1|Hd1]; simpl; [|done].
    rewrite (load_Some _ _ _ Hout).
    destruct (Z.eqb_spec (Degree cout) 1); simpl; [|done]. lia.
  - intros Hd1 Hd2 Hgt. rewrite Hd1. simpl.
    rewrite (load_Some _ _ _ Hout), Hd2. simpl.
    rewrite Z.gtb_ltb. destruct (Z.ltb_spec (LogSlots cin) logBatchSize); [done|lia].
Qed.

(** C9. In [Average], for a limb of prime modulus [q] (a [uint64]) and a
    reduction count [n] (a [uint64]) coprime to [q], the scalar
    [invN = MForm(ModExp(n, q - 2, q), q)] satisfies
    [(n * invN) mod q = MontgomeryOne q], the Montgomery representation of
    one modulo [q]. *)
Theorem invN_montgomery_inverse (s : SubRing) (n : Z) :
  Z.prime (Modulus s) ->
  Modulus s < 2 ^ 64 ->
  0 <= n < 2 ^ 64 ->
  Z.gcd n (Modulus s) = 1 ->
  (n * invN n s) mod Modulus s = MontgomeryOne (Modulus s).
Proof.
  intros Hq Hq64 Hn Hgcd. set (q := Modulus s) in *.
  pose proof (Z.prime_ge_2 q Hq) as Hq2.
  unfold invN, MForm, ModExp, MontgomeryOne, usub, uint64. fold q.
  rewrite (Z.mod_small n), (Z.mod_small (q - 2)) by lia.
  assert (Hnz : n mod q <> 0).
  { intros Hdiv. apply Z.mod_divide in Hdiv; [|lia].
    assert (Hqq : (q | Z.gcd n q)) by (apply Z.gcd_greatest; [done|reflexivity]).
    rewrite Hgcd in Hqq. apply Z.divide_1_r_nonneg in Hqq; lia. }
  rewrite Z.mul_mod_idemp_r by lia.
  rewrite Z.mul_assoc, <- Z.mul_mod_idemp_l by lia.
  rewrite Z.mul_mod_idemp_r by lia.
  replace (n * n ^ (q - 2)) with (n ^ (q - 1)).
  2:{ replace (q - 1) with (Z.succ (q - 2)) by lia. rewrite Z.pow_succ_r; lia. }
  rewrite (Z.fermat_nz q n Hq Hnz), Z.mul_1_l. done.
Qed.

End AverageFacts.

Section AverageLoop.
Context {eval : Evaluator}.
Implicit Types (st : store) (cin cout ct : Ciphertext) (rin rout : list (list Z)).

Lemma index_Some {A} (a : list A) (i : nat) (x : A) :
  a !! i = Some x -> index a (Z.of_nat i) = Ok x.
Proof.
  intros Hi. unfold index. destruct (Z.ltb_spec (Z.of_nat i) 0); [lia|].
  by rewrite Nat2Z.id, Hi.
Qed.

Lemma scaled_rows_lookup (n : Z) (k j : nat) rin rout :
  scaled_rows n k rin rout !! j
  = (fun p2 =>
       if decide (j < k)%nat then
         match SubRings !! j, rin !! j with
         | Some s, Some p1 => MulScalarMontgomery s p1 (invN n s) p2
         | _, _ => p2
         end
       else p2) <$> rout !! j.
Proof. unfold scaled_rows. by rewrite list_lookup_imap. Qed.

Lemma scaled_rows_lookup_ge (n : Z) (k j : nat) rin rout :
  (k <= j)%nat -> scaled_rows n k rin rout !! j = rout !! j.
Proof.
  intros Hj. rewrite scaled_rows_lookup.
  destruct (decide (j < k)%nat); [lia|]. by destruct (rout !! j).
Qed.

Lemma scaled_rows_0 (n : Z) rin rout : scaled_rows n 0 rin rout = rout.
Proof.
  apply list_eq. intros j. apply scaled_rows_lookup_ge. lia.
Qed.

Lemma scaled_rows_step (n : Z) (k : nat) rin rout s p1 p2 :
  SubRings !! k = Some s -> rin !! k = Some p1 -> rout !! k = Some p2 ->
  <[k := MulScalarMontgomery s p1 (invN n s) p2]> (scaled_rows n k rin rout)
  = scaled_rows n (S k) rin rout.
Proof.
  intros Hs Hp1 Hp2. apply list_eq. intros j.
  destruct (decide (j = k)) as [->|Hjk].
  - rewrite list_lookup_insert_eq.
    2:{ unfold scaled_rows. rewrite length_imap. by eapply lookup_lt_Some. }
    rewrite scaled_rows_lookup, Hp2, Hs, Hp1. simpl.
    destruct (decide (k < S k)%nat); [done|lia].
  - rewrite list_lookup_insert_ne by done.
    rewrite !scaled_rows_lookup.
    destruct (decide (j < k)%nat), (decide (j < S k)%nat); try done; lia.
Qed.

Lemma scale_limb_run (ctIn ctOut c i : nat) (s : SubRing) (k : Z) st
    cin cout pin p1 pout p2 :
  st !! ctIn = Some cin -> Value cin !! c = Some pin -> Coeffs pin !! i = Some p1 ->
  st !! ctOut = Some cout -> Value cout !! c = Some pout -> Coeffs pout !! i = Some p2 ->
  scale_limb ctIn ctOut (Z.of_nat c) (Z.of_nat i) s k st
  = (<[ctOut :=
        {| Value := <[c := {| Coeffs := <[i := MulScalarMontgomery s p1 k p2]>
                                          (Coeffs pout) |}]> (Value cout);
           LogSlots := LogSlots cout |}]> st, Ok tt).
Proof.
  intros Hin Hpin Hp1 Hout Hpout Hp2. unfold scale_limb, bind, lift.
  rewrite (load_Some _ _ _ Hin), (index_Some _ _ _ Hpin), (index_Some _ _ _ Hp1).
  rewrite (load_Some _ _ _ Hout), (index_Some _ _ _ Hpout), (index_Some _ _ _ Hp2).
  by rewrite !Nat2Z.id.
Qed.

Lemma scaled_ct_two (n : Z) (k : nat) cin cout a0 a1 b0 b1 :
  Value cin = [a0; a1] -> Value cout = [b0; b1] ->
  scaled_ct n k cin cout
  = {| Value := [ {| Coeffs := scaled_rows n k (Coeffs a0) (Coeffs b0) |};
                  {| Coeffs := scaled_rows n k (Coeffs a1) (Coeffs b1) |} ];
       LogSlots := LogSlots cout |}.
Proof. intros Hin Hout. unfold scaled_ct. rewrite Hin, Hout. done. Qed.

Lemma scaled_ct_0 (n : Z) cin cout a0 a1 b0 b1 :
  Value cin = [a0; a1] -> Value cout = [b0; b1] ->
  scaled_ct n 0 cin cout = cout.
Proof.
  intros Hin Hout. rewrite (scaled_ct_two n 0 cin cout a0 a1 b0 b1 Hin Hout).
  rewrite !scaled_rows_0. destruct cout as [vs ls]; simpl in *. subst vs.
  by destruct b0, b1.
Qed.

(** One iteration of the loop, on the store where the limbs below [k]
    have been scaled. *)
Lemma scale_step (ctIn ctOut : nat) (n : Z) (k : nat) (s : SubRing) st
    cin cout a0 a1 b0 b1 :
  st !! ctIn = Some cin -> st !! ctOut = Some cout ->
  Value cin = [a0; a1] -> Value cout = [b0; b1] ->
  SubRings !! k = Some s ->
  (k < length (Coeffs a0))%nat -> (k < length (Coeffs a1))%nat ->
  (k < length (Coeffs b0))%nat -> (k < length (Coeffs b1))%nat ->
  (scale_limb ctIn ctOut 0 (Z.of_nat k) s (invN n s) ;;
   scale_limb ctIn ctOut 1 (Z.of_nat k) s (invN n s))
    (<[ctOut := scaled_ct n k cin cout]> st)
  = (<[ctOut := scaled_ct n (S k) cin cout]> st, Ok tt).
Proof.
  intros Hin Hout Hvin Hvout Hs Ha0 Ha1 Hb0 Hb1.
  apply lookup_lt_is_Some_2 in Ha0 as [ra0 Hra0], Ha1 as [ra1 Hra1].
  apply lookup_lt_is_Some_2 in Hb0 as [rb0 Hrb0], Hb1 as [rb1 Hrb1].
  rewrite !(scaled_ct_two n _ cin cout a0 a1 b0 b1 Hvin Hvout).
  set (A := {| Value := [ {| Coeffs := scaled_rows n k (Coeffs a0) (Coeffs b0) |};
                          {| Coeffs := scaled_rows n k (Coeffs a1) (Coeffs b1) |} ];
               LogSlots := LogSlots cout |}).
  set (B := {| Value := [ {| Coeffs := scaled_rows n (S k) (Coeffs a0) (Coeffs b0) |};
                          {| Coeffs := scaled_rows n k (Coeffs a1) (Coeffs b1) |} ];
               LogSlots := LogSlots cout |}).
  unfold bind.
  (* the component 0 *)
  assert (H0 : scale_limb ctIn ctOut 0 (Z.of_nat k) s (invN n s) (<[ctOut := A]> st)
               = (<[ctOut := B]> st, Ok tt)).
  { destruct (decide (ctIn = ctOut)) as [->|Hne].
    - assert (cin = cout) as -> by congruence.
      assert (a0 = b0 /\ a1 = b1) as [-> ->] by (split; congruence).
      pose proof (scale_limb_run ctOut ctOut 0 k s (invN n s) (<[ctOut := A]> st) A A
                 _ rb0 _ rb0 (lookup_insert_eq _ _ _) eq_refl
                 ltac:(simpl; by rewrite scaled_rows_lookup_ge by lia)
                 (lookup_insert_eq _ _ _) eq_refl
                 ltac:(simpl; by rewrite scaled_rows_lookup_ge by lia)) as H0.
      change (Z.of_nat 0) with 0 in H0. rewrite H0.
      rewrite insert_insert_eq. simpl.
      by rewrite (scaled_rows_step n k _ _ s rb0 rb0 Hs Hrb0 Hrb0).
    - pose proof (scale_limb_run ctIn ctOut 0 k s (invN n s) (<[ctOut := A]> st) cin A
                 a0 ra0 _ rb0
                 ltac:(by rewrite lookup_insert_ne) ltac:(by rewrite Hvin) Hra0
                 (lookup_insert_eq _ _ _) eq_refl
                 ltac:(simpl; by rewrite scaled_rows_lookup_ge by lia)) as H0.
      change (Z.of_nat 0) with 0 in H0. rewrite H0.
      rewrite insert_insert_eq. simpl.
      by rewrite (scaled_rows_step n k _ _ s ra0 rb0 Hs Hra0 Hrb0). }
  rewrite H0.
  (* the component 1 *)
  destruct (decide (ctIn = ctOut)) as [->|Hne].
  - assert (cin = cout) as -> by congruence.
    assert (a0 = b0 /\ a1 = b1) as [-> ->] by (split; congruence).
    pose proof (scale_limb_run ctOut ctOut 1 k s (invN n s) (<[ctOut := B]> st) B B
               _ rb1 _ rb1 (lookup_insert_eq _ _ _) eq_refl
               ltac:(simpl; by rewrite scaled_rows_lookup_ge by lia)
               (lookup_insert_eq _ _ _) eq_refl
               ltac:(simpl; by rewrite scaled_rows_lookup_ge by lia)) as H1.
    change (Z.of_nat 1) with 1 in H1. rewrite H1.
    rewrite insert_insert_eq. simpl.
    by rewrite (scaled_rows_step n k _ _ s rb1 rb1 Hs Hrb1 Hrb1).
  - pose proof (scale_limb_run ctIn ctOut 1 k s (invN n s) (<[ctOut := B]> st) cin B
               a1 ra1 _ rb1
               ltac:(by rewrite lookup_insert_ne) ltac:(by rewrite Hvin) Hra1
               (lookup_insert_eq _ _ _) eq_refl
               ltac:(simpl; by rewrite scaled_rows_lookup_ge by lia)) as H1.
    change (Z.of_nat 1) with 1 in H1. rewrite H1.
    rewrite insert_insert_eq. simpl.
    by rewrite (scaled_rows_step n k _ _ s ra1 rb1 Hs Hra1 Hrb1).
Qed.

(** The loop, from the limb [k] on. *)
Lemma scale_limbs_run (ctIn ctOut : nat) (n : Z) (L : nat) st
    cin cout a0 a1 b0 b1 :
  st !! ctIn = Some cin -> st !! ctOut = Some cout ->
  Value cin = [a0; a1] -> Value cout = [b0; b1] ->
  (L <= length SubRings)%nat ->
  (L <= length (Coeffs a0))%nat -> (L <= length (Coeffs a1))%nat ->
  (L <= length (Coeffs b0))%nat -> (L <= length (Coeffs b1))%nat ->
  forall (m k : nat), (k + m = L)%nat ->
    scale_limbs ctIn ctOut n (Z.of_nat k) (drop k (take L SubRings))
      (<[ctOut := scaled_ct n k cin cout]> st)
    = (<[ctOut := scaled_ct n L cin cout]> st, Ok tt).
Proof.
  intros Hin Hout Hvin Hvout HL Ha0 Ha1 Hb0 Hb1 m.
  induction m as [|m IH]; intros k Hk.
  - assert (k = L) as -> by lia.
    rewrite drop_ge by (rewrite length_take; lia). done.
  - assert (Hlt : (k < length SubRings)%nat) by lia.
    apply lookup_lt_is_Some_2 in Hlt as [s Hs].
    rewrite (drop_S _ s k) by (rewrite lookup_take_lt by lia; done).
    cbn [scale_limbs].
    pose proof (scale_step ctIn ctOut n k s st cin cout a0 a1 b0 b1
                  Hin Hout Hvin Hvout Hs ltac:(lia) ltac:(lia) ltac:(lia)
                  ltac:(lia)) as Hstep.
    unfold bind in Hstep |- *.
    destruct (scale_limb ctIn ctOut 0 (Z.of_nat k) s (invN n s)
                (<[ctOut := scaled_ct n k cin cout]> st)) as [st1 [[]|p]];
      [|done].
    rewrite Hstep.
    replace (Z.of_nat k + 1) with (Z.of_nat (S k)) by lia.
    apply IH. lia.
Qed.

(** What [scaled_ct] holds at a limb below [k], and at the others. *)
Lemma scaled_ct_limb (n : Z) (k c i : nat) cin cout pin pout s p1 p2 :
  (c < 2)%nat -> (i < k)%nat ->
  Value cin !! c = Some pin -> Value cout !! c = Some pout ->
  SubRings !! i = Some s ->
  Coeffs pin !! i = Some p1 -> Coeffs pout !! i = Some p2 ->
  exists pout',
    Value (scaled_ct n k cin cout) !! c = Some pout' /\
    Coeffs pout' !! i = Some (MulScalarMontgomery s p1 (invN n s) p2).
Proof.
  intros Hc Hi Hpin Hpout Hs Hp1 Hp2. unfold scaled_ct. simpl.
  rewrite list_lookup_imap, Hpout, Hpin. simpl.
  destruct (decide (c < 2)%nat); [|lia].
  eexists. split; [done|]. simpl.
  rewrite scaled_rows_lookup, Hp2, Hs, Hp1. simpl.
  destruct (decide (i < k)%nat); [done|lia].
Qed.

Lemma scaled_ct_limb_above (n : Z) (k c i : nat) cin cout pin pout :
  (c < 2)%nat -> (k <= i)%nat ->
  Value cin !! c = Some pin -> Value cout !! c = Some pout ->
  exists pout',
    Value (scaled_ct n k cin cout) !! c = Some pout' /\
    Coeffs pout' !! i = Coeffs pout !! i.
Proof.
  intros Hc Hi Hpin Hpout. unfold scaled_ct. simpl.
  rewrite list_lookup_imap, Hpout, Hpin. simpl.
  destruct (decide (c < 2)%nat); [|lia].
  eexists. split; [done|]. simpl. by apply scaled_rows_lookup_ge.
Qed.

Lemma degree_one_two ct :
  Degree ct = 1 -> exists p0 p1, Value ct = [p0; p1].
Proof.
  unfold Degree. intros Hd.
  destruct (Value ct) as [|p0 [|p1 [|p2 vs]]]; simpl in Hd; try lia. eauto.
Qed.

(** C2, amended.  For degree-1 ciphertexts [ctIn] and [ctOut] with
    [0 <= logBatchSize <= ctIn.LogSlots <= 62], whose components have the
    limbs [0 .. level] for [level = min(ctIn.Level, ctOut.Level)], the ring
    having [level + 1] sub-rings: [Average] takes [n = 2^(ctIn.LogSlots -
    logBatchSize)], multiplies, for every limb index [i <= level], both
    components of [ctIn] at limb [i] by [invN] (the Montgomery form of
    [n^(modulus-2) mod modulus]) into [ctOut], and then calls [InnerSum] on
    [ctOut] with batch size [2^logBatchSize] and count [n], in place.
    [ctIn] and [ctOut] may be the same pointer. *)
Theorem average_scales_then_sums (ctIn ctOut : nat) (logBatchSize : Z) st
    cin cout (lin lout : Z) :
  st !! ctIn = Some cin ->
  st !! ctOut = Some cout ->
  Degree cin = 1 ->
  Degree cout = 1 ->
  0 <= logBatchSize <= LogSlots cin ->
  LogSlots cin <= 62 ->
  Level cin = Ok lin ->
  Level cout = Ok lout ->
  let level := Z.min lin lout in
  let n := 2 ^ (LogSlots cin - logBatchSize) in
  level + 1 <= Z.of_nat (length SubRings) <= GoInt.int_max ->
  limbs_upto level cin ->
  limbs_upto level cout ->
  Average ctIn logBatchSize ctOut st
  = InnerSum ctOut (2 ^ logBatchSize) n ctOut
      (<[ctOut := scaled_ct n (Z.to_nat (level + 1)) cin cout]> st).
Proof.
  intros Hin Hout Hdin Hdout Hlbs Hls Hlin Hlout level n Hrings Hwin Hwout.
  destruct (degree_one_two cin Hdin) as (a0 & a1 & Hvin).
  destruct (degree_one_two cout Hdout) as (b0 & b1 & Hvout).
  assert (Hlin' : lin = Z.of_nat (length (Coeffs a0)) - 1).
  { unfold Level in Hlin. rewrite Hvin in Hlin. simpl in Hlin. congruence. }
  assert (Hlout' : lout = Z.of_nat (length (Coeffs b0)) - 1).
  { unfold Level in Hlout. rewrite Hvout in Hlout. simpl in Hlout. congruence. }
  unfold limbs_upto in Hwin, Hwout. rewrite Hvin in Hwin. rewrite Hvout in Hwout.
  apply Forall_cons in Hwin as [Hwa0 Hwin]. apply Forall_cons in Hwin as [Hwa1 _].
  apply Forall_cons in Hwout as [Hwb0 Hwout]. apply Forall_cons in Hwout as [Hwb1 _].
  unfold Average, bind, throw, ret, lift.
  rewrite (load_Some _ _ _ Hin), Hdin. simpl.
  rewrite (load_Some _ _ _ Hout), Hdout. simpl.
  rewrite Z.gtb_ltb. destruct (Z.ltb_spec (LogSlots cin) logBatchSize); [lia|].
  rewrite Hlin, (load_Some _ _ _ Hout), Hlout. fold level.
  rewrite sub_small by (unfold GoInt.in_int, GoInt.int_min, GoInt.int_max; lia).
  rewrite shl_pow2 by lia. fold n.
  unfold GoInt.add. rewrite wrap_small
    by (unfold GoInt.in_int, GoInt.int_min, GoInt.int_max in *; lia).
  unfold prefix_to.
  destruct (Z.leb_spec 0 (level + 1)); [|lia].
  destruct (Z.leb_spec (level + 1) (Z.of_nat (length SubRings))); [|lia]. simpl.
  set (L := Z.to_nat (level + 1)).
  pose proof (scale_limbs_run ctIn ctOut n L st cin cout a0 a1 b0 b1
                Hin Hout Hvin Hvout ltac:(lia) ltac:(lia) ltac:(lia) ltac:(lia)
                ltac:(lia) L 0%nat ltac:(lia)) as Hloop.
  rewrite (scaled_ct_0 n cin cout a0 a1 b0 b1 Hvin Hvout) in Hloop.
  rewrite insert_id in Hloop by done.
  rewrite drop_0 in Hloop. change (Z.of_nat 0) with 0 in Hloop.
  rewrite Hloop. rewrite shl_pow2 by lia. done.
Qed.

End AverageLoop.

(** ** The theorems on the test vectors *)

Section OnTestVectors.
Import TestVectors.
#[local] Existing Instance encoder.
#[local] Existing Instance evaluator.

Lemma rotation_correct_witness :
  diagonals l0 !! 0 = Some v0 /\
  slice_ok h0 v0 /\
  slice_ok h0 (values l0) /\
  sbase v0 <> sbase (values l0) /\
  2 ^ 2 <= len v0 /\
  (forall h' arg,
     rotated_values l0 0 1 2 h0 = (h', Ok arg) ->
     len arg = 2 ^ 2 /\
     forall p, 0 <= p < 2 ^ 2 ->
       exists x,
         elems h' arg !! Z.to_nat p = Some x /\
         elems h0 v0 !! Z.to_nat ((p + 1 mod 2 ^ 2) mod 2 ^ 2) = Some x) /\
  (0 <= 2 ->
   1 mod 2 ^ 2 = 0 \/ 2 ^ 2 <= len (values l0) ->
   exists h' arg, rotated_values l0 0 1 2 h0 = (h', Ok arg)).
Proof.
  assert (Hi : diagonals l0 !! 0 = Some v0) by reflexivity.
  assert (Hv : slice_ok h0 v0) by (vm_compute; repeat split; (lia || discriminate)).
  assert (Hb : slice_ok h0 (values l0))
    by (vm_compute; repeat split; (lia || discriminate)).
  assert (Hne : sbase v0 <> sbase (values l0)) by (vm_compute; lia).
  assert (Hlen : 2 ^ 2 <= len v0) by (vm_compute; discriminate).
  repeat (split; [assumption|]).
  exact (rotation_correct l0 0 1 2 h0 v0 Hi Hv Hb eq_refl Hne Hlen).
Defined.

(** The example of the specification: the diagonal [1, 2, 3, 4] rotated by
    1 over 4 slots is [2, 3, 4, 1]. *)
Example rotation_example :
  let h' : heap Z := <[1%nat := [2; 3; 4; 1; 0; 0; 0; 0]]> h0 in
  rotated_values l0 0 1 2 h0 = (h', Ok (Slice 1 0 4 8)) /\
  elems h' (Slice 1 0 4 8) = [2; 3; 4; 1].
Proof. split; vm_compute; reflexivity. Qed.

Lemma masked_rotation_witness :
  0 <= 2 <= 62 /\
  shl 1 2 = Ok (2 ^ 2) /\
  Z.land (-3) (GoInt.sub (2 ^ 2) 1) = (-3) mod 2 ^ 2 /\
  0 <= Z.land (-3) (GoInt.sub (2 ^ 2) 1) < 2 ^ 2 /\
  (Z.land (-3) (GoInt.sub (2 ^ 2) 1) <> 0 ->
   (2 ^ 2 >=? Z.land (-3) (GoInt.sub (2 ^ 2) 1)) = true) /\
  rotated_values_alt (throw IndexOutOfRange) l0 0 (-3) 2 h0
  = rotated_values l0 0 (-3) 2 h0.
Proof.
  assert (Hk : 0 <= 2 <= 62) by lia.
  split; [exact Hk|].
  exact (masked_rotation_skips_else_branch l0 0 (-3) 2 (throw IndexOutOfRange) h0 Hk).
Defined.

Lemma naive_missing_diagonal_witness :
  diagonals l_alias !! 0 = None /\
  diagonals l_alias !! (0 - 2 ^ 2) = Some v0 /\
  EncodeLinearTransformDiagonalNaive l_alias 0 1 2 [] h0
  = (h0, Ok ([], Some (DiagonalNotFound 0))).
Proof.
  assert (Hi : diagonals l_alias !! 0 = None) by reflexivity.
  split; [exact Hi|]. split; [reflexivity|].
  exact (naive_missing_diagonal l_alias 0 1 2 [] h0 Hi).
Defined.

Lemma alias_index_witness :
  diagonals l_alias !! 0 = None /\
  is_Some (diagonals l_alias !! GoInt.sub 0 (2 ^ 2)) /\
  EncodeLinearTransformDiagonal l_alias 0 1 1 2 [] h0
  = EncodeLinearTransformDiagonal l_alias (GoInt.sub 0 (2 ^ 2)) 1 1 2 [] h0.
Proof.
  assert (Hi : diagonals l_alias !! 0 = None) by reflexivity.
  assert (Hj : is_Some (diagonals l_alias !! GoInt.sub 0 (2 ^ 2)))
    by (exists v0; reflexivity).
  repeat (split; [assumption|]).
  exact (alias_index_equivalent l_alias 0 1 1 2 [] h0 Hi Hj).
Defined.

(** C8, counterexample: with [logSlots = 63] the shift [1 << logSlots]
    wraps to [slots = -2^63], which is not a power of two; for [rot = 1]
    the masked value [rot & (slots - 1)] is 1, outside [[0, slots)] and
    not 0, the test [slots >= rot] fails and the else branch runs: with
    the branch replaced by a computation that panics otherwise, the
    function panics otherwise. *)
Lemma else_branch_runs_when_shift_wraps :
  shl 1 63 = Ok (- 2 ^ 63) /\
  Z.land 1 (GoInt.sub (- 2 ^ 63) 1) = 1 /\
  ~ (0 <= Z.land 1 (GoInt.sub (- 2 ^ 63) 1) < - 2 ^ 63) /\
  Z.land 1 (GoInt.sub (- 2 ^ 63) 1) <> 0 /\
  (- 2 ^ 63 >=? Z.land 1 (GoInt.sub (- 2 ^ 63) 1)) = false /\
  rotated_values l0 0 1 63 h0 = (h0, Panic SliceBounds) /\
  rotated_values_alt (throw IndexOutOfRange) l0 0 1 63 h0
  = (h0, Panic IndexOutOfRange) /\
  rotated_values_alt (throw IndexOutOfRange) l0 0 1 63 h0
  <> rotated_values l0 0 1 63 h0.
Proof.
  assert (Hm : Z.land 1 (GoInt.sub (- 2 ^ 63) 1) = 1) by reflexivity.
  split; [reflexivity|]. split; [exact Hm|].
  split; [rewrite Hm; lia|]. split; [rewrite Hm; lia|].
  split; [reflexivity|]. split; [reflexivity|]. split; [reflexivity|].
  vm_compute. discriminate.
Qed.

(** C10, counterexample: with no diagonal at 1 or at 1 - 4 and a masked
    rotation of 1, the function panics on the nil slice; it does not
    return, and does not embed the scratch buffer. *)
Lemma absent_diagonal_nonzero_rotation_panics :
  diagonals l_empty !! 1 = None /\
  diagonals l_empty !! GoInt.sub 1 (2 ^ 2) = None /\
  Z.land 1 (GoInt.sub (2 ^ 2) 1) <> 0 /\
  EncodeLinearTransformDiagonal l_empty 1 1 1 2 [] h0 = (h0, Panic SliceBounds) /\
  EncodeLinearTransformDiagonal l_empty 1 1 1 2 [] h0
  <> embed (Slice 1 0 4 8) 2 1 [] h0.
Proof. repeat split; try reflexivity; vm_compute; discriminate. Qed.

Lemma absent_diagonal_witness :
  0 <= 2 <= 62 /\
  diagonals l_empty !! 1 = None /\
  diagonals l_empty !! GoInt.sub 1 (2 ^ 2) = None /\
  EncodeLinearTransformDiagonal l_empty 1 3 1 2 [] h0 = (h0, Panic SliceBounds).
Proof.
  assert (Hk : 0 <= 2 <= 62) by lia.
  assert (Hi : diagonals l_empty !! 1 = None) by reflexivity.
  assert (Hj : diagonals l_empty !! GoInt.sub 1 (2 ^ 2) = None) by reflexivity.
  repeat (split; [assumption|]).
  exact (absent_diagonal_panics l_empty 1 3 1 2 [] h0 Hk Hi Hj).
Defined.

(** C5, counterexample: with four slots and rotation 0, on a diagonal of
    eight elements the rotated form embeds the first four, the naive form
    all eight; on a diagonal of two elements and capacity two the rotated
    form panics on [v[:slots]], the naive form calls [Embed] and returns. *)
Lemma unrotated_differs_from_naive :
  diagonals l_long !! 0 = Some v_long /\
  EncodeLinearTransformDiagonal l_long 0 0 1 2 [] h0
  = (h0, Ok ([1; 2; 3; 4], None)) /\
  EncodeLinearTransformDiagonalNaive l_long 0 1 2 [] h0
  = (h0, Ok ([1; 2; 3; 4; 5; 6; 7; 8], None)) /\
  diagonals l_short !! 0 = Some v_short /\
  EncodeLinearTransformDiagonal l_short 0 0 1 2 [] h0 = (h0, Panic SliceBounds) /\
  EncodeLinearTransformDiagonalNaive l_short 0 1 2 [] h0
  = (h0, Ok ([1; 2], None)).
Proof. repeat split; reflexivity. Qed.

Lemma unrotated_equals_naive_witness :
  0 <= 2 <= 62 /\
  diagonals l0 !! 0 = Some v0 /\
  (slen v0 <= scap v0)%nat /\
  len v0 = 2 ^ 2 /\
  EncodeLinearTransformDiagonal l0 0 0 1 2 [] h0
  = EncodeLinearTransformDiagonalNaive l0 0 1 2 [] h0.
Proof.
  assert (Hk : 0 <= 2 <= 62) by lia.
  assert (Hi : diagonals l0 !! 0 = Some v0) by reflexivity.
  assert (Hc : (slen v0 <= scap v0)%nat) by (simpl; lia).
  assert (Hl : len v0 = 2 ^ 2) by reflexivity.
  repeat (split; [assumption|]).
  exact (unrotated_equals_naive l0 0 1 2 [] h0 v0 Hk Hi Hc Hl).
Defined.

Lemma average_precondition_witness :
  st0 !! 0%nat = Some ct_in /\
  st0 !! 2%nat = Some ct_deg2 /\
  (Degree ct_in <> 1 \/ Degree ct_deg2 <> 1) /\
  Average 0 1 2 st0 = (st0, Panic InvalidOperand) /\
  st0 !! 1%nat = Some ct_out /\
  Degree ct_in = 1 /\ Degree ct_out = 1 /\ 5 > LogSlots ct_in /\
  Average 0 5 1 st0 = (st0, Panic InvalidParameter).
Proof.
  assert (Hin : st0 !! 0%nat = Some ct_in) by reflexivity.
  assert (Hbad : st0 !! 2%nat = Some ct_deg2) by reflexivity.
  assert (Hout : st0 !! 1%nat = Some ct_out) by reflexivity.
  assert (Hdeg : Degree ct_in <> 1 \/ Degree ct_deg2 <> 1)
    by (right; vm_compute; discriminate).
  assert (Hgt : 5 > LogSlots ct_in) by reflexivity.
  split; [exact Hin|]. split; [exact Hbad|]. split; [exact Hdeg|].
  split; [exact (proj1 (average_precondition_failures 0 2 1 st0 ct_in ct_deg2
                          Hin Hbad) Hdeg)|].
  split; [exact Hout|]. split; [reflexivity|]. split; [reflexivity|].
  split; [exact Hgt|].
  exact (proj2 (average_precondition_failures 0 1 5 st0 ct_in ct_out Hin Hout)
           eq_refl eq_refl Hgt).
Defined.

Lemma prime_17 : Z.prime 17.
Proof.
  split; [lia|]. intros n Hn [k Hk].
  assert (Hcases : n = 2 \/ n = 3 \/ n = 4 \/ n = 5 \/ n = 6 \/ n = 7 \/ n = 8 \/
                   n = 9 \/ n = 10 \/ n = 11 \/ n = 12 \/ n = 13 \/ n = 14 \/
                   n = 15 \/ n = 16) by lia.
  repeat (destruct Hcases as [->|Hcases]; [lia|]). lia.
Qed.

Lemma invN_witness :
  Z.prime (Modulus (17 : SubRing)) /\
  Modulus (17 : SubRing) < 2 ^ 64 /\
  0 <= 4 < 2 ^ 64 /\
  Z.gcd 4 (Modulus (17 : SubRing)) = 1 /\
  (4 * invN 4 (17 : SubRing)) mod Modulus (17 : SubRing)
  = MontgomeryOne (Modulus (17 : SubRing)).
Proof.
  assert (Hq : Z.prime (Modulus (17 : SubRing))) by exact prime_17.
  assert (Hq64 : Modulus (17 : SubRing) < 2 ^ 64) by reflexivity.
  assert (Hn : 0 <= 4 < 2 ^ 64) by lia.
  assert (Hg : Z.gcd 4 (Modulus (17 : SubRing)) = 1) by reflexivity.
  repeat (split; [assumption|]).
  exact (invN_montgomery_inverse (17 : SubRing) 4 Hq Hq64 Hn Hg).
Defined.

(** C2, counterexample: with [logBatchSize = -1], below the log-slot-count
    3 of [ctIn], [Average] scales [ctOut] and then panics on the shift
    [1 << logBatchSize]; [InnerSum], which never panics here, is not
    called. *)
Lemma average_negative_log_batch_size :
  st0 !! 0%nat = Some ct_in /\ st0 !! 1%nat = Some ct_out /\
  Degree ct_in = 1 /\ Degree ct_out = 1 /\
  -1 <= LogSlots ct_in /\
  snd (Average 0 (-1) 1 st0) = Panic NegativeShift /\
  fst (Average 0 (-1) 1 st0) <> st0 /\
  forall (batchSize n : Z) (st : store), snd (InnerSum 1 batchSize n 1 st) = Ok tt.
Proof.
  repeat split; try reflexivity; try (vm_compute; discriminate).
Qed.

Lemma average_witness :
  st0 !! 0%nat = Some ct_in /\
  st0 !! 1%nat = Some ct_out /\
  Degree ct_in = 1 /\ Degree ct_out = 1 /\
  0 <= 1 <= LogSlots ct_in /\ LogSlots ct_in <= 62 /\
  Level ct_in = Ok 1 /\ Level ct_out = Ok 1 /\
  Z.min 1 1 + 1 <= Z.of_nat (length SubRings) <= GoInt.int_max /\
  limbs_upto (Z.min 1 1) ct_in /\ limbs_upto (Z.min 1 1) ct_out /\
  Average 0 1 1 st0
  = InnerSum 1 (2 ^ 1) (2 ^ (LogSlots ct_in - 1)) 1
      (<[1%nat := scaled_ct (2 ^ (LogSlots ct_in - 1))
                    (Z.to_nat (Z.min 1 1 + 1)) ct_in ct_out]> st0).
Proof.
  assert (Hin : st0 !! 0%nat = Some ct_in) by reflexivity.
  assert (Hout : st0 !! 1%nat = Some ct_out) by reflexivity.
  assert (Hlbs : 0 <= 1 <= LogSlots ct_in) by (vm_compute; split; discriminate).
  assert (Hls : LogSlots ct_in <= 62) by (vm_compute; discriminate).
  assert (Hr : Z.min 1 1 + 1 <= Z.of_nat (length SubRings) <= GoInt.int_max)
    by (vm_compute; split; discriminate).
  assert (Hwin : limbs_upto (Z.min 1 1) ct_in)
    by (repeat constructor).
  assert (Hwout : limbs_upto (Z.min 1 1) ct_out)
    by (repeat constructor).
  split; [exact Hin|]. split; [exact Hout|].
  split; [reflexivity|]. split; [reflexivity|].
  split; [exact Hlbs|]. split; [exact Hls|].
  split; [reflexivity|]. split; [reflexivity|].
  split; [exact Hr|]. split; [exact Hwin|]. split; [exact Hwout|].
  exact (average_scales_then_sums 0 1 1 st0 ct_in ct_out 1 1 Hin Hout
           eq_refl eq_refl Hlbs Hls eq_refl eq_refl Hr Hwin Hwout).
Defined.

(** The limbs that [Average] leaves in [ctOut] on the test vectors: the
    rows of [ctIn] divided by 4 modulo 17 and 97. *)
Example average_example :
  Value (scaled_ct (2 ^ 2) 2 ct_in ct_out)
  = [ {| Coeffs := [[2; 1]; [49; 50]] |}; {| Coeffs := [[3; 4]; [51; 52]] |} ].
Proof. vm_compute. reflexivity. Qed.

End OnTestVectors.

Section Frame.
Context {T : Type} {ecd : Encoder T}.
Implicit Types (l : LinearTransformEncoder) (h : heap T) (v d s : slice).

Lemma writes_only_lift {A} (b0 : nat) (r : res A) :
  writes_only (T := T) b0 (lift r).
Proof. by intros h b. Qed.

Lemma writes_only_ret {A} (b0 : nat) (a : A) : writes_only (T := T) b0 (ret a).
Proof. by intros h b. Qed.

Lemma writes_only_bind {A B} (b0 : nat) (m : M (heap T) A) (k : A -> M (heap T) B) :
  writes_only b0 m ->
  (forall h h' a, m h = (h', Ok a) -> writes_only b0 (k a)) ->
  writes_only b0 (bind m k).
Proof.
  intros Hm Hk h b. unfold bind.
  destruct (Hm h b) as [F L].
  destruct (m h) as [h' [a|p]] eqn:Hrun; simpl in *; [|done].
  destruct (Hk h h' a Hrun h' b) as [F' L']. split.
  - intros Hb. by rewrite F', F.
  - by rewrite L', L.
Qed.

Lemma writes_only_copy d s : writes_only (T := T) (sbase d) (copy d s).
Proof.
  intros h b. unfold copy; simpl. split.
  - intros Hb. by rewrite lookup_alter_ne.
  - destruct (decide (b = sbase d)) as [->|Hb].
    + by rewrite array_alter_inserts, length_inserts.
    + by rewrite array_alter_ne.
Qed.

Lemma slice_to_base v (hi : Z) a : slice_to v hi = Ok a -> sbase a = sbase v.
Proof. intros Ha. apply slice_to_inv in Ha as [_ ->]. done. Qed.

Lemma slice_from_base v (lo : Z) a : slice_from v lo = Ok a -> sbase a = sbase v.
Proof. intros Ha. apply slice_from_inv in Ha as [_ ->]. done. Qed.

Lemma lift_inv {A} (r : res A) h h' (a : A) :
  lift r h = (h', Ok a) -> r = Ok a.
Proof. unfold lift. congruence. Qed.

Lemma writes_only_copy_to (vals src : slice) (hi : Z) :
  writes_only (T := T) (sbase vals)
    (let* d := lift (slice_to vals hi) in copy d src).
Proof.
  apply writes_only_bind; [apply writes_only_lift|].
  intros h h' d Hd%lift_inv. rewrite <- (slice_to_base _ _ _ Hd).
  apply writes_only_copy.
Qed.

Lemma rotated_values_writes_only l (i rot k : Z) :
  writes_only (T := T) (sbase (values l)) (rotated_values l i rot k).
Proof.
  unfold rotated_values.
  apply writes_only_bind; [apply writes_only_lift|]. intros _ _ slots _.
  apply writes_only_bind; [|intros; apply writes_only_lift].
  destruct (negb _); [|apply writes_only_lift].
  apply writes_only_bind; [|intros; apply writes_only_ret].
  destruct (_ >=? _).
  - apply writes_only_bind; [apply writes_only_lift|].
    intros _ _ d1 Hd1%lift_inv.
    apply writes_only_bind; [apply writes_only_lift|]. intros _ _ s1 _.
    apply writes_only_bind.
    { rewrite <- (slice_to_base _ _ _ Hd1). apply writes_only_copy. }
    intros _ _ _ _.
    apply writes_only_bind; [apply writes_only_lift|].
    intros _ _ d2 Hd2%lift_inv.
    apply writes_only_bind; [apply writes_only_lift|]. intros _ _ s2 _.
    rewrite <- (slice_from_base _ _ _ Hd2). apply writes_only_copy.
  - apply writes_only_bind; [apply writes_only_lift|].
    intros _ _ d Hd%lift_inv.
    rewrite <- (slice_from_base _ _ _ Hd). apply writes_only_copy.
Qed.

Lemma writes_only_embed (b0 : nat) (arg : slice) (k : Z) (scale : Scale)
    (output : Poly) :
  writes_only (T := T) b0 (embed arg k scale output).
Proof. intros h b. unfold embed. by destruct (Embed _ _ _ _ _). Qed.

Lemma writes_only_slice_ok {A} (b0 : nat) (m : M (heap T) A) h s :
  writes_only b0 m -> slice_ok h s -> slice_ok (fst (m h)) s.
Proof.
  intros Hm (Hl & Hf & Hc). destruct (Hm h (sbase s)) as [_ L].
  unfold slice_ok. by rewrite L.
Qed.

Lemma writes_only_elems {A} (b0 : nat) (m : M (heap T) A) h s :
  writes_only b0 m -> sbase s <> b0 -> elems (fst (m h)) s = elems h s.
Proof.
  intros Hm Hs. destruct (Hm h (sbase s)) as [F _].
  unfold elems, array. by rewrite F.
Qed.

End Frame.

Section RotationRun.
Context {T : Type} {ecd : Encoder T}.
Implicit Types (l : LinearTransformEncoder) (h : heap T) (v d s : slice).

Lemma rotate_0 {A} (xs : list A) : rotate 0 xs = xs.
Proof.
  unfold rotate. destruct xs as [|x xs]; [done|].
  rewrite Nat.Div0.mod_0_l. simpl. by rewrite app_nil_r.
Qed.

(** The whole of [rotated_values] on a diagonal that covers the slots: it
    returns, and the slice it returns shows the first [slots] elements of
    the diagonal rotated left by [rot mod slots]. *)
Lemma rotated_values_run l (i rot k : Z) h v :
  diagonals l !! i = Some v ->
  slice_ok h v ->
  slice_ok h (values l) ->
  slen (values l) = scap (values l) ->
  sbase v <> sbase (values l) ->
  0 <= k ->
  2 ^ k <= len v ->
  rot mod 2 ^ k = 0 \/ 2 ^ k <= len (values l) ->
  exists h' arg,
    rotated_values l i rot k h = (h', Ok arg) /\
    elems h' arg
    = rotate (Z.to_nat (rot mod 2 ^ k)) (take (Z.to_nat (2 ^ k)) (elems h v)).
Proof.
  intros Hi Hv Hb Hfull Hne Hk0 Hlen Hfit.
  assert (Hk : 0 <= k <= 62) by (split; [done|exact (log_slots_bound h v k Hv Hk0 Hlen)]).
  set (slots := 2 ^ k) in *.
  pose proof (pow2_le_int k Hk) as Hpow. fold slots in Hpow.
  assert (Hrange : 0 <= rot mod slots < slots) by (apply Z.mod_pos_bound; lia).
  pose proof Hv as (Hvl & Hvf & Hvc). pose proof Hb as (Hbl & Hbf & Hbc).
  unfold len, cap in *.
  destruct (Z.eq_dec (rot mod slots) 0) as [Hz|Hnz].
  - rewrite (rotated_values_zero l i rot k h v Hi Hk Hz). fold slots.
    rewrite slice_to_Ok by (unfold cap; lia).
    rewrite slice_to_Ok by (unfold cap; simpl; lia).
    eexists _, _. split; [done|].
    rewrite Hz. change (Z.to_nat 0) with 0%nat. rewrite rotate_0.
    unfold elems; simpl. rewrite take_take. f_equal. lia.
  - destruct Hfit as [?|Hfit]; [done|].
    rewrite (rotated_values_nonzero l i rot k h v Hi Hk Hnz). fold slots.
    set (r := rot mod slots) in *. unfold bind, lift.
    rewrite slice_to_Ok by (unfold cap; lia).
    rewrite slice_from_Ok by (unfold len; lia). simpl.
    rewrite slice_from_Ok by (unfold len; lia).
    rewrite slice_to_Ok by (unfold cap; lia). simpl.
    rewrite slice_to_Ok by (unfold cap; lia).
    eexists _, _. split; [done|].
    set (n := Z.to_nat slots). set (rn := Z.to_nat r).
    replace (Z.to_nat (slots - r)) with (n - rn)%nat by lia.
    match goal with |- elems ?hh ?a = _ => set (h2 := hh); set (arg := a) end.
    assert (Hlen2 : length (elems h2 arg) = n).
    { unfold elems, arg; simpl. rewrite length_take, length_drop.
      unfold h2. rewrite !array_alter_inserts, !length_inserts. lia. }
    assert (HlenV : length (take n (elems h v)) = n).
    { rewrite length_take, elems_length by done. lia. }
    apply list_eq. intros p.
    destruct (decide (p < n)%nat) as [Hp|Hp].
    + pose proof (two_copies_lookup h v (values l) n rn p Hv Hb Hne
                    ltac:(lia) ltac:(lia) ltac:(lia) Hp) as Hrot.
      simpl in Hrot. unfold copy in Hrot; simpl in Hrot.
      fold h2 in Hrot. fold arg in Hrot. rewrite Hrot.
      rewrite lookup_rotate_r by lia. rewrite HlenV.
      rewrite lookup_take_lt.
      2:{ unfold rotate_nat_add.
          pose proof (Z.mod_pos_bound (Z.of_nat rn + Z.of_nat p) (Z.of_nat n)). lia. }
      f_equal. unfold rotate_nat_add.
      rewrite <- Nat2Z.inj_add, <- Nat2Z.inj_mod, Nat2Z.id. f_equal. lia.
    + rewrite !lookup_ge_None_2; [done| |]; rewrite ?length_rotate; lia.
Qed.

End RotationRun.

Section EncoderExtras.
Context {T : Type} {ecd : Encoder T}.
Implicit Types (l : LinearTransformEncoder) (h : heap T) (v d s : slice).

(** A call keeps every slice well formed and every slice off the scratch
    array unchanged. *)
Lemma encoding_footprint_aux l (i rot : Z) (scale : Scale) (k : Z)
    (output : Poly) h :
  let h' := fst (EncodeLinearTransformDiagonal l i rot scale k output h) in
  (forall s, slice_ok h s -> slice_ok h' s) /\
  (forall s, sbase s <> sbase (values l) -> elems h' s = elems h s).
Proof.
  intros h'.
  assert (Hw : writes_only (T := T) (sbase (values l))
                 (EncodeLinearTransformDiagonal l i rot scale k output)).
  { unfold EncodeLinearTransformDiagonal.
    apply writes_only_bind; [apply rotated_values_writes_only|].
    intros. apply writes_only_embed. }
  split.
  - intros s Hs. by apply (writes_only_slice_ok _ _ h s Hw).
  - intros s Hs. by apply (writes_only_elems _ _ h s Hw).
Qed.

(** X2. Whatever its arguments and its outcome,
    [EncodeLinearTransformDiagonal] writes the array of the scratch
    buffer only and keeps its length: the other arrays, the slices based
    on them and the well-formedness of every slice are as before; with a
    rotation that is a multiple of [slots] it writes nothing at all.
    [EncodeLinearTransformDiagonalNaive] never writes the store. *)
Theorem encoding_footprint l (i rot : Z) (scale : Scale) (logSlots : Z)
    (output : Poly) h :
  let h' := fst (EncodeLinearTransformDiagonal l i rot scale logSlots output h) in
  (forall b, b <> sbase (values l) -> h' !! b = h !! b) /\
  (forall b, length (array h' b) = length (array h b)) /\
  (forall s, slice_ok h s -> slice_ok h' s) /\
  (forall s, sbase s <> sbase (values l) -> elems h' s = elems h s) /\
  (0 <= logSlots <= 62 -> rot mod 2 ^ logSlots = 0 -> h' = h) /\
  fst (EncodeLinearTransformDiagonalNaive l i scale logSlots output h) = h.
Proof.
  intros h'.
  assert (Hw : writes_only (T := T) (sbase (values l))
                 (EncodeLinearTransformDiagonal l i rot scale logSlots output)).
  { unfold EncodeLinearTransformDiagonal.
    apply writes_only_bind; [apply rotated_values_writes_only|].
    intros. apply writes_only_embed. }
  split; [|split; [|split; [|split; [|split]]]].
  - intros b Hb. by apply Hw.
  - intros b. apply Hw.
  - intros s Hs. by apply (writes_only_slice_ok _ _ h s Hw).
  - intros s Hs. by apply (writes_only_elems _ _ h s Hw).
  - intros Hk Hz. unfold h', EncodeLinearTransformDiagonal, rotated_values.
    unfold bind, lift, embed.
    rewrite (shl_pow2 logSlots Hk), mask_mod, Hz by done. simpl.
    destruct (slice_to _ _) as [a|]; [|done]. simpl.
    destruct (slice_to a _); [|done]. by destruct (Embed _ _ _ _ _).
  - unfold EncodeLinearTransformDiagonalNaive, embed, ret.
    destruct (diagonals l !! i); [|done]. by destruct (Embed _ _ _ _ _).
Qed.

(** X3. The rotation amount counts modulo [slots = 2^logSlots]: two
    amounts with the same residue, negative ones included, give the same
    store, output and error (or panic). *)
Theorem rotation_amount_periodic l (i rot rot' : Z) (scale : Scale)
    (logSlots : Z) (output : Poly) h :
  0 <= logSlots <= 62 ->
  rot mod 2 ^ logSlots = rot' mod 2 ^ logSlots ->
  EncodeLinearTransformDiagonal l i rot scale logSlots output h
  = EncodeLinearTransformDiagonal l i rot' scale logSlots output h.
Proof.
  intros Hk Hmod.
  unfold EncodeLinearTransformDiagonal, rotated_values, bind, lift.
  rewrite (shl_pow2 logSlots Hk), !mask_mod, Hmod by done. done.
Qed.

(** The result of a call on a diagonal that covers the slots. *)
Lemma encode_run l (i rot : Z) (scale : Scale) (k : Z) (output : Poly) h v :
  diagonals l !! i = Some v ->
  slice_ok h v ->
  slice_ok h (values l) ->
  slen (values l) = scap (values l) ->
  sbase v <> sbase (values l) ->
  0 <= k ->
  2 ^ k <= len v ->
  rot mod 2 ^ k = 0 \/ 2 ^ k <= len (values l) ->
  let E := Embed (rotate (Z.to_nat (rot mod 2 ^ k))
                    (take (Z.to_nat (2 ^ k)) (elems h v))) k scale true output in
  exists h',
    EncodeLinearTransformDiagonal l i rot scale k output h
    = (h', Ok (fst E, EmbedFailed <$> snd E)).
Proof.
  intros Hi Hv Hb Hfull Hne Hk Hlen Hfit E.
  destruct (rotated_values_run l i rot k h v Hi Hv Hb Hfull Hne Hk Hlen Hfit)
    as (h' & arg & Hrun & Hel).
  exists h'. unfold EncodeLinearTransformDiagonal, bind. rewrite Hrun.
  unfold embed. rewrite Hel. fold E. by destruct E.
Qed.

(** X5. The scratch buffer keeps nothing between calls: on a diagonal
    that covers the slots, the output and error of
    [EncodeLinearTransformDiagonal] are the same after any earlier call on
    the encoder, whatever that call was given and however it ended. *)
Theorem encode_after_earlier_call l (i rot : Z) (scale : Scale) (logSlots : Z)
    (output : Poly) (i' rot' : Z) (scale' : Scale) (logSlots' : Z)
    (output' : Poly) h v :
  diagonals l !! i = Some v ->
  slice_ok h v ->
  slice_ok h (values l) ->
  slen (values l) = scap (values l) ->
  sbase v <> sbase (values l) ->
  0 <= logSlots ->
  2 ^ logSlots <= len v ->
  rot mod 2 ^ logSlots = 0 \/ 2 ^ logSlots <= len (values l) ->
  let h1 := fst (EncodeLinearTransformDiagonal l i' rot' scale' logSlots'
                   output' h) in
  snd (EncodeLinearTransformDiagonal l i rot scale logSlots output h1)
  = snd (EncodeLinearTransformDiagonal l i rot scale logSlots output h).
Proof.
  intros Hi Hv Hb Hfull Hne Hk Hlen Hfit h1.
  destruct (encoding_footprint_aux l i' rot' scale' logSlots' output' h)
    as (Hok & Hel).
  fold h1 in Hok, Hel.
  destruct (encode_run l i rot scale logSlots output h v Hi Hv Hb Hfull Hne Hk
              Hlen Hfit) as (h2 & ->).
  destruct (encode_run l i rot scale logSlots output h1 v Hi (Hok v Hv)
              (Hok _ Hb) Hfull Hne Hk Hlen Hfit) as (h3 & ->).
  simpl. by rewrite (Hel v Hne).
Qed.

End EncoderExtras.

Section EncoderExtras2.
Context {T : Type} {ecd : Encoder T}.
Implicit Types (l : LinearTransformEncoder) (h : heap T) (v d s : slice).

(** X1. [NewLinearTransformEncoder], when the slot bound [MaxSlots] is a
    length, returns an encoder over the given diagonals whose scratch
    buffer is a slice of length and capacity [MaxSlots], holding zero
    values, on an array that the store did not have; the arrays of the
    store stay as they were and its slices stay well formed. *)
Theorem new_encoder_allocates_scratch (diags : gmap Z slice) h :
  0 <= MaxSlots <= GoInt.int_max ->
  exists h' l,
    NewLinearTransformEncoder diags h = (h', Ok l) /\
    diagonals l = diags /\
    len (values l) = MaxSlots /\
    cap (values l) = MaxSlots /\
    elems h' (values l) = replicate (Z.to_nat MaxSlots) zero /\
    h !! sbase (values l) = None /\
    (forall b, b <> sbase (values l) -> h' !! b = h !! b) /\
    (forall s, slice_ok h s -> slice_ok h' s).
Proof.
  intros HM. unfold NewLinearTransformEncoder, bind, make, ret.
  destruct (Z.ltb_spec MaxSlots 0); [lia|].
  destruct (Z.ltb_spec GoInt.int_max MaxSlots); [lia|]. simpl.
  eexists _, _. split; [done|]. simpl.
  pose proof (is_fresh (dom h)) as Hfresh.
  assert (Hnone : h !! fresh (dom h) = None) by (by apply not_elem_of_dom).
  split; [done|]. split; [unfold len; simpl; lia|].
  split; [unfold cap; simpl; lia|]. split.
  { unfold elems, array. simpl. rewrite lookup_insert_eq. simpl.
    rewrite drop_0, take_ge; [done|]. by rewrite length_replicate. }
  split; [done|]. split.
  { intros b Hb. by rewrite lookup_insert_ne. }
  intros s (Hl & Hf & Hc). repeat split; try done.
  destruct (decide (sbase s = fresh (dom h))) as [Heq|Hneq].
  - unfold array in *. rewrite Heq, Hnone in Hf. simpl in Hf.
    rewrite Heq, lookup_insert_eq. simpl. lia.
  - unfold array in *. by rewrite lookup_insert_ne.
Qed.

(** X4. Constructor and encoding together: on an encoder that
    [NewLinearTransformEncoder] has just built, for a diagonal of at least
    [slots = 2^logSlots] elements and [slots <= MaxSlots],
    [EncodeLinearTransformDiagonal] does not panic; it returns what
    [Embed] returns, Montgomery flag set, on the first [slots] elements of
    the diagonal rotated left by [rot mod slots]. *)
Theorem new_encoder_encodes_rotation (diags : gmap Z slice) h (i rot : Z)
    (scale : Scale) (logSlots : Z) (output : Poly) v :
  0 <= MaxSlots <= GoInt.int_max ->
  diags !! i = Some v ->
  slice_ok h v ->
  0 <= logSlots ->
  2 ^ logSlots <= len v ->
  2 ^ logSlots <= MaxSlots ->
  let E := Embed (rotate (Z.to_nat (rot mod 2 ^ logSlots))
                    (take (Z.to_nat (2 ^ logSlots)) (elems h v)))
             logSlots scale true output in
  exists h1 l h2,
    NewLinearTransformEncoder diags h = (h1, Ok l) /\
    EncodeLinearTransformDiagonal l i rot scale logSlots output h1
    = (h2, Ok (fst E, EmbedFailed <$> snd E)).
Proof.
  intros HM Hi Hv Hk Hlen Hfit E.
  assert (Hpos : 0 < 2 ^ logSlots) by (apply Z.pow_pos_nonneg; lia).
  destruct (NewLinearTransformEncoder diags h) as [h1 [l|p]] eqn:Hnew.
  2:{ exfalso. revert Hnew. unfold NewLinearTransformEncoder, bind, make, ret.
      destruct (Z.ltb_spec MaxSlots 0); [lia|].
      destruct (Z.ltb_spec GoInt.int_max MaxSlots); [lia|]. done. }
  destruct (new_encoder_scratch diags h h1 l HM Hnew)
    as (Hd & Hok & Hfull & Hlenb & Hfresh & Harr).
  assert (Hdom : sbase v ∈ dom h).
  { apply elem_of_dom. destruct (h !! sbase v) as [xs|] eqn:Hx; [eauto|].
    destruct Hv as (Hvl & Hvf & _). unfold array in Hvf. rewrite Hx in Hvf.
    unfold len in Hlen. simpl in Hvf. lia. }
  assert (Hne : sbase v <> sbase (values l)) by (intros Heq; by rewrite Heq in Hdom).
  assert (Hv1 : slice_ok h1 v).
  { destruct Hv as (Hvl & Hvf & Hvc). unfold slice_ok. by rewrite (Harr _ Hdom). }
  assert (Hel : elems h1 v = elems h v) by (unfold elems; by rewrite (Harr _ Hdom)).
  destruct (encode_run l i rot scale logSlots output h1 v ltac:(by rewrite Hd)
              Hv1 Hok Hfull Hne Hk Hlen ltac:(right; lia)) as (h2 & Hrun).
  rewrite Hel in Hrun. by exists h1, l, h2.
Qed.

(** X6. With a rotation that is not a multiple of [slots] and more slots
    than the scratch buffer has capacity, [EncodeLinearTransformDiagonal]
    panics with a slice-bounds run-time error, whatever the diagonal. *)
Theorem scratch_too_small_panics l (i rot : Z) (scale : Scale) (logSlots : Z)
    (output : Poly) h :
  0 <= logSlots <= 62 ->
  rot mod 2 ^ logSlots <> 0 ->
  cap (values l) < 2 ^ logSlots ->
  snd (EncodeLinearTransformDiagonal l i rot scale logSlots output h)
  = Panic SliceBounds.
Proof.
  intros Hk Hr Hcap.
  destruct (masked_range rot logSlots Hk) as [Hmask Hrange].
  unfold EncodeLinearTransformDiagonal, rotated_values, bind, lift, ret.
  rewrite (shl_pow2 logSlots Hk). simpl.
  set (slots := 2 ^ logSlots) in *.
  set (r := Z.land rot (GoInt.sub slots 1)) in *.
  set (v := match diagonals l !! i with
            | Some v => v
            | None => default nil_slice (diagonals l !! GoInt.sub i slots)
            end).
  destruct (Z.eqb_spec r 0) as [?|_]; [lia|]. simpl.
  assert ((slots >=? r) = true) as -> by (apply Z.geb_le; lia).
  assert (Hlast : slice_to (values l) slots = Panic SliceBounds).
  { unfold slice_to. zcases; try done; lia. }
  destruct (slice_to (values l) (GoInt.sub slots r)) as [d1|p] eqn:Hd1;
    [|by rewrite (slice_to_panic _ _ _ Hd1)].
  destruct (slice_from v r) as [s1|p] eqn:Hs1;
    [|by rewrite (slice_from_panic _ _ _ Hs1)]. simpl.
  destruct (slice_from (values l) (GoInt.sub slots r)) as [d2|p] eqn:Hd2;
    [|by rewrite (slice_from_panic _ _ _ Hd2)].
  destruct (slice_to v r) as [s2|p] eqn:Hs2;
    [|by rewrite (slice_to_panic _ _ _ Hs2)]. simpl.
  by rewrite Hlast.
Qed.

End EncoderExtras2.

Section ShortDiagonal.
Context {T : Type} {ecd : Encoder T}.
Implicit Types (l : LinearTransformEncoder) (h : heap T) (v d s : slice).

(** The two copies when the diagonal has [m < n] elements: the entries
    from [m - r] to [n - r] of the scratch slice are not written. *)
Lemma two_copies_short h v b (n m r : nat) :
  slice_ok h v -> slice_ok h b -> sbase v <> sbase b ->
  (0 < r)%nat -> (r <= m)%nat -> (m < n)%nat -> slen v = m -> (n <= slen b)%nat ->
  let d1 := Slice (sbase b) (soff b) (n - r) (scap b) in
  let s1 := Slice (sbase v) (soff v + r) (slen v - r) (scap v - r) in
  let d2 := Slice (sbase b) (soff b + (n - r)) (slen b - (n - r)) (scap b - (n - r)) in
  let s2 := Slice (sbase v) (soff v) r (scap v) in
  let h1 := fst (copy d1 s1 h) in
  let h2 := fst (copy d2 s2 h1) in
  elems h2 (Slice (sbase b) (soff b) n (scap b))
  = drop r (elems h v) ++ take (n - m) (drop (m - r) (elems h b))
    ++ take r (elems h v).
Proof.
  intros Hv Hb Hne Hr Hrm Hmn Hm Hnb d1 s1 d2 s2 h1 h2.
  pose proof Hv as (Hvl & Hvf & _). pose proof Hb as (Hbl & Hbf & _).
  assert (HV : length (elems h v) = m) by (by rewrite elems_length).
  assert (HS : length (elems h b) = slen b) by (by rewrite elems_length).
  assert (Hs1 : length (elems h s1) = (m - r)%nat).
  { unfold elems, s1; simpl. rewrite length_take, length_drop. lia. }
  assert (Hs2 : length (elems h1 s2) = r).
  { unfold elems, s2, h1, copy; simpl. rewrite array_alter_ne by done.
    rewrite length_take, length_drop. lia. }
  set (data1 := take (Nat.min (n - r) (slen v - r)) (elems h s1)).
  set (data2 := take (Nat.min (slen b - (n - r)) r) (elems h1 s2)).
  assert (Hd1 : length data1 = (m - r)%nat) by (unfold data1; rewrite length_take; lia).
  assert (Hd2 : length data2 = r) by (unfold data2; rewrite length_take; lia).
  assert (Harr : array h2 (sbase b)
                 = list_inserts (soff b + (n - r)) data2
                     (list_inserts (soff b) data1 (array h (sbase b)))).
  { unfold h2, copy; simpl. rewrite array_alter_inserts.
    unfold h1 at 2, copy; simpl. by rewrite array_alter_inserts. }
  apply list_eq. intros p.
  destruct (decide (p < n)%nat) as [Hp|Hp].
  2:{ rewrite !lookup_ge_None_2; [done| |].
      - rewrite !length_app, length_drop, !length_take, length_drop. lia.
      - unfold elems; simpl. rewrite length_take. lia. }
  rewrite elems_lookup by (simpl; lia). simpl. rewrite Harr.
  destruct (decide (p < m - r)%nat) as [H1|H1];
    [|destruct (decide (p < n - r)%nat) as [H2|H2]].
  - rewrite list_lookup_inserts_lt by lia.
    rewrite list_lookup_inserts by lia.
    replace (soff b + p - soff b)%nat with p by lia.
    unfold data1. rewrite lookup_take_lt by lia.
    rewrite elems_lookup by (simpl; lia). simpl.
    rewrite lookup_app_l by (rewrite length_drop; lia).
    rewrite lookup_drop, elems_lookup by lia. f_equal. lia.
  - rewrite list_lookup_inserts_lt by lia.
    rewrite list_lookup_inserts_ge by lia.
    rewrite lookup_app_r by (rewrite length_drop; lia).
    rewrite length_drop, HV.
    rewrite lookup_app_l by (rewrite length_take, length_drop; lia).
    rewrite lookup_take_lt by lia.
    rewrite lookup_drop, elems_lookup by lia. f_equal. lia.
  - rewrite list_lookup_inserts by (rewrite ?length_inserts; lia).
    unfold data2. rewrite lookup_take_lt by lia.
    rewrite elems_lookup by (simpl; lia). simpl.
    unfold h1, copy; simpl. rewrite array_alter_ne by done.
    rewrite lookup_app_r by (rewrite length_drop; lia).
    rewrite length_drop, HV.
    rewrite lookup_app_r by (rewrite length_take, length_drop; lia).
    rewrite length_take, length_drop, HS.
    rewrite lookup_take_lt by lia.
    rewrite elems_lookup by lia. f_equal. lia.
Qed.

Lemma encode_unfold l (i rot : Z) (scale : Scale) (k : Z) (output : Poly) h :
  EncodeLinearTransformDiagonal l i rot scale k output h
  = match rotated_values l i rot k h with
    | (h', Ok arg) => embed arg k scale output h'
    | (h', Panic p) => (h', Panic p)
    end.
Proof. done. Qed.

(** X8. A diagonal shorter than [slots], rotated by [r = rot mod slots]
    not 0: if it has fewer than [r] elements the call panics on [v[rot:]],
    the store untouched; otherwise the call returns, and the vector it
    embeds is [v[r:]], then the entries [len(v) - r .. slots - r) that the
    scratch buffer held before the call, then [v[:r]]. *)
Theorem short_diagonal_keeps_stale_entries l (i rot : Z) (scale : Scale)
    (logSlots : Z) (output : Poly) h v :
  diagonals l !! i = Some v ->
  slice_ok h v ->
  slice_ok h (values l) ->
  slen (values l) = scap (values l) ->
  sbase v <> sbase (values l) ->
  0 <= logSlots <= 62 ->
  len v < 2 ^ logSlots <= len (values l) ->
  rot mod 2 ^ logSlots <> 0 ->
  let r := rot mod 2 ^ logSlots in
  (len v < r ->
   EncodeLinearTransformDiagonal l i rot scale logSlots output h
   = (h, Panic SliceBounds)) /\
  (r <= len v ->
   let vec := drop (Z.to_nat r) (elems h v)
              ++ take (Z.to_nat (2 ^ logSlots - len v))
                   (drop (Z.to_nat (len v - r)) (elems h (values l)))
              ++ take (Z.to_nat r) (elems h v) in
   let E := Embed vec logSlots scale true output in
   exists h',
     EncodeLinearTransformDiagonal l i rot scale logSlots output h
     = (h', Ok (fst E, EmbedFailed <$> snd E))).
Proof.
  intros Hi Hv Hb Hfull Hne Hk Hlen Hnz r.
  set (slots := 2 ^ logSlots) in *.
  assert (Hrange : 0 <= r < slots)
    by (apply Z.mod_pos_bound; unfold slots; apply Z.pow_pos_nonneg; lia).
  pose proof Hv as (Hvl & Hvf & Hvc). pose proof Hb as (Hbl & Hbf & Hbc).
  rewrite encode_unfold.
  rewrite (rotated_values_nonzero l i rot logSlots h v Hi Hk Hnz).
  fold slots. fold r. unfold len, cap in *. split.
  - intros Hshort. unfold bind, lift.
    rewrite slice_to_Ok by (unfold cap; lia).
    assert (slice_from v r = Panic SliceBounds) as ->; [|done].
    unfold slice_from, len. zcases; try done; lia.
  - intros Hrv. unfold bind, lift.
    rewrite slice_to_Ok by (unfold cap; lia).
    rewrite slice_from_Ok by (unfold len; lia). simpl.
    rewrite slice_from_Ok by (unfold len; lia).
    rewrite slice_to_Ok by (unfold cap; lia). simpl.
    rewrite slice_to_Ok by (unfold cap; lia).
    eexists. unfold embed.
    pose proof (two_copies_short h v (values l) (Z.to_nat slots) (slen v)
                  (Z.to_nat r) Hv Hb Hne ltac:(lia) ltac:(lia) ltac:(lia)
                  eq_refl ltac:(lia)) as Hcopy.
    simpl in Hcopy. unfold copy in Hcopy; simpl in Hcopy.
    replace (Z.to_nat (slots - r)) with (Z.to_nat slots - Z.to_nat r)%nat by lia.
    rewrite Hcopy.
    replace (Z.to_nat slots - slen v)%nat
      with (Z.to_nat (slots - Z.of_nat (slen v))) by lia.
    replace (slen v - Z.to_nat r)%nat
      with (Z.to_nat (Z.of_nat (slen v) - r)) by lia.
    by destruct (Embed _ _ _ _ _).
Qed.

End ShortDiagonal.

Section AverageExtras.
Context {eval : Evaluator}.
Implicit Types (st : store) (cin cout ct : Ciphertext).

(** [Average] up to the shift [1 << logBatchSize]: the guards pass, the
    loop scales [ctOut]. *)
Lemma average_prescale (ctIn ctOut : nat) (logBatchSize : Z) st
    cin cout (lin lout : Z) :
  st !! ctIn = Some cin ->
  st !! ctOut = Some cout ->
  Degree cin = 1 ->
  Degree cout = 1 ->
  logBatchSize <= LogSlots cin ->
  LogSlots cin - logBatchSize <= 62 ->
  Level cin = Ok lin ->
  Level cout = Ok lout ->
  let level := Z.min lin lout in
  let n := 2 ^ (LogSlots cin - logBatchSize) in
  level + 1 <= Z.of_nat (length SubRings) <= GoInt.int_max ->
  limbs_upto level cin ->
  limbs_upto level cout ->
  Average ctIn logBatchSize ctOut st
  = (let* batchSize := lift (shl 1 logBatchSize) in
     InnerSum ctOut batchSize n ctOut)
      (<[ctOut := scaled_ct n (Z.to_nat (level + 1)) cin cout]> st).
Proof.
  intros Hin Hout Hdin Hdout Hlbs Hls Hlin Hlout level n Hrings Hwin Hwout.
  destruct (degree_one_two cin Hdin) as (a0 & a1 & Hvin).
  destruct (degree_one_two cout Hdout) as (b0 & b1 & Hvout).
  assert (Hlin' : lin = Z.of_nat (length (Coeffs a0)) - 1).
  { unfold Level in Hlin. rewrite Hvin in Hlin. simpl in Hlin. congruence. }
  assert (Hlout' : lout = Z.of_nat (length (Coeffs b0)) - 1).
  { unfold Level in Hlout. rewrite Hvout in Hlout. simpl in Hlout. congruence. }
  unfold limbs_upto in Hwin, Hwout. rewrite Hvin in Hwin. rewrite Hvout in Hwout.
  apply Forall_cons in Hwin as [Hwa0 Hwin]. apply Forall_cons in Hwin as [Hwa1 _].
  apply Forall_cons in Hwout as [Hwb0 Hwout]. apply Forall_cons in Hwout as [Hwb1 _].
  unfold Average, bind, throw, ret, lift.
  rewrite (load_Some _ _ _ Hin), Hdin. simpl.
  rewrite (load_Some _ _ _ Hout), Hdout. simpl.
  rewrite Z.gtb_ltb. destruct (Z.ltb_spec (LogSlots cin) logBatchSize); [lia|].
  rewrite Hlin, (load_Some _ _ _ Hout), Hlout. fold level.
  rewrite sub_small by (unfold GoInt.in_int, GoInt.int_min, GoInt.int_max; lia).
  rewrite shl_pow2 by lia. fold n.
  unfold GoInt.add. rewrite wrap_small
    by (unfold GoInt.in_int, GoInt.int_min, GoInt.int_max in *; lia).
  unfold prefix_to.
  destruct (Z.leb_spec 0 (level + 1)); [|lia].
  destruct (Z.leb_spec (level + 1) (Z.of_nat (length SubRings))); [|lia]. simpl.
  set (L := Z.to_nat (level + 1)).
  pose proof (scale_limbs_run ctIn ctOut n L st cin cout a0 a1 b0 b1
                Hin Hout Hvin Hvout ltac:(lia) ltac:(lia) ltac:(lia) ltac:(lia)
                ltac:(lia) L 0%nat ltac:(lia)) as Hloop.
  rewrite (scaled_ct_0 n cin cout a0 a1 b0 b1 Hvin Hvout) in Hloop.
  rewrite insert_id in Hloop by done.
  rewrite drop_0 in Hloop. change (Z.of_nat 0) with 0 in Hloop.
  rewrite Hloop. done.
Qed.

(** X9. With a negative [logBatchSize] (and the other preconditions met)
    [Average] does not stop at a guard: it pre-scales [ctOut] and then
    panics on the shift [1 << logBatchSize], so the store it leaves has
    [ctOut] scaled and [InnerSum] has not run. *)
Theorem average_negative_batch_mutates_then_panics (ctIn ctOut : nat)
    (logBatchSize : Z) st cin cout (lin lout : Z) :
  st !! ctIn = Some cin ->
  st !! ctOut = Some cout ->
  Degree cin = 1 ->
  Degree cout = 1 ->
  logBatchSize < 0 ->
  logBatchSize <= LogSlots cin ->
  LogSlots cin - logBatchSize <= 62 ->
  Level cin = Ok lin ->
  Level cout = Ok lout ->
  let level := Z.min lin lout in
  let n := 2 ^ (LogSlots cin - logBatchSize) in
  level + 1 <= Z.of_nat (length SubRings) <= GoInt.int_max ->
  limbs_upto level cin ->
  limbs_upto level cout ->
  Average ctIn logBatchSize ctOut st
  = (<[ctOut := scaled_ct n (Z.to_nat (level + 1)) cin cout]> st,
     Panic NegativeShift).
Proof.
  intros Hin Hout Hdin Hdout Hneg Hlbs Hls Hlin Hlout level n Hrings Hwin Hwout.
  rewrite (average_prescale ctIn ctOut logBatchSize st cin cout lin lout)
    by done.
  unfold bind, lift. by rewrite shl_negative.
Qed.

(** X11. In place or not: [Average] with [ctOut] the same pointer as
    [ctIn] hands [InnerSum] the same pre-scaled ciphertext as [Average]
    with [ctOut] another pointer to an equal ciphertext. *)
Theorem average_in_place_as_on_a_copy (p q : nat) (logBatchSize : Z) st
    ct (lev : Z) :
  p <> q ->
  st !! p = Some ct ->
  st !! q = Some ct ->
  Degree ct = 1 ->
  0 <= logBatchSize <= LogSlots ct ->
  LogSlots ct <= 62 ->
  Level ct = Ok lev ->
  lev + 1 <= Z.of_nat (length SubRings) <= GoInt.int_max ->
  limbs_upto lev ct ->
  let n := 2 ^ (LogSlots ct - logBatchSize) in
  exists ct',
    Average p logBatchSize p st
    = InnerSum p (2 ^ logBatchSize) n p (<[p := ct']> st) /\
    Average p logBatchSize q st
    = InnerSum q (2 ^ logBatchSize) n q (<[q := ct']> st).
Proof.
  intros Hpq Hp Hq Hd Hlbs Hls Hlev Hrings Hw n.
  exists (scaled_ct n (Z.to_nat (lev + 1)) ct ct).
  assert (Hmin : Z.min lev lev = lev) by lia.
  rewrite (average_prescale p p logBatchSize st ct ct lev lev)
    by (rewrite ?Hmin; (done || lia)).
  rewrite (average_prescale p q logBatchSize st ct ct lev lev)
    by (rewrite ?Hmin; (done || lia)).
  rewrite Hmin. fold n. unfold bind, lift. by rewrite shl_pow2 by lia.
Qed.

(** X13. When [min(ctIn.Level, ctOut.Level) + 1] exceeds the number of
    sub-rings of the ring, [Average] panics with a slice-bounds run-time
    error on [ringQ.SubRings[:level+1]], before it writes anything. *)
Theorem average_level_above_ring_panics (ctIn ctOut : nat) (logBatchSize : Z)
    st cin cout (lin lout : Z) :
  st !! ctIn = Some cin ->
  st !! ctOut = Some cout ->
  Degree cin = 1 ->
  Degree cout = 1 ->
  logBatchSize <= LogSlots cin ->
  LogSlots cin - logBatchSize <= GoInt.int_max ->
  Level cin = Ok lin ->
  Level cout = Ok lout ->
  Z.of_nat (length SubRings) < Z.min lin lout + 1 <= GoInt.int_max ->
  Average ctIn logBatchSize ctOut st = (st, Panic SliceBounds).
Proof.
  intros Hin Hout Hdin Hdout Hlbs Hls Hlin Hlout Hrings.
  unfold Average, bind, throw, ret, lift.
  rewrite (load_Some _ _ _ Hin), Hdin. simpl.
  rewrite (load_Some _ _ _ Hout), Hdout. simpl.
  rewrite Z.gtb_ltb. destruct (Z.ltb_spec (LogSlots cin) logBatchSize); [lia|].
  rewrite Hlin, (load_Some _ _ _ Hout), Hlout.
  rewrite sub_small by (unfold GoInt.in_int, GoInt.int_min, GoInt.int_max in *; lia).
  unfold shl. destruct (Z.ltb_spec (LogSlots cin - logBatchSize) 0); [lia|].
  unfold GoInt.add. rewrite wrap_small
    by (unfold GoInt.in_int, GoInt.int_min, GoInt.int_max in *; lia).
  unfold prefix_to.
  destruct (Z.leb_spec (Z.min lin lout + 1) (Z.of_nat (length SubRings))); [lia|].
  by rewrite andb_false_r.
Qed.

(** The inverse, for a count that is not a multiple of the prime. *)
Lemma invN_inverse_of_unit (s : SubRing) (n : Z) :
  Z.prime (Modulus s) ->
  Modulus s < 2 ^ 64 ->
  0 <= n < 2 ^ 64 ->
  n mod Modulus s <> 0 ->
  (n * invN n s) mod Modulus s = MontgomeryOne (Modulus s).
Proof.
  intros Hq Hq64 Hn Hnz. set (q := Modulus s) in *.
  pose proof (Z.prime_ge_2 q Hq) as Hq2.
  unfold invN, MForm, ModExp, MontgomeryOne, usub, uint64. fold q.
  rewrite (Z.mod_small n), (Z.mod_small (q - 2)) by lia.
  rewrite Z.mul_mod_idemp_r by lia.
  rewrite Z.mul_assoc, <- Z.mul_mod_idemp_l by lia.
  rewrite Z.mul_mod_idemp_r by lia.
  replace (n * n ^ (q - 2)) with (n ^ (q - 1)).
  2:{ replace (q - 1) with (Z.succ (q - 2)) by lia. rewrite Z.pow_succ_r; lia. }
  rewrite (Z.fermat_nz q n Hq Hnz), Z.mul_1_l. done.
Qed.

Lemma odd_prime_not_dividing_pow2 (q k : Z) :
  Z.prime q -> 2 < q -> 0 <= k -> 2 ^ k mod q <> 0.
Proof.
  intros Hq Hq2 Hk Hdiv. apply Z.mod_divide in Hdiv; [|lia].
  revert Hdiv. pattern k. apply natlike_ind; [| |done].
  - intros Hd. apply Z.divide_1_r_nonneg in Hd; lia.
  - intros j Hj IH Hd. rewrite Z.pow_succ_r in Hd by done.
    apply (Z.divide_prime_mul _ _ _ Hq) in Hd as [Hd|Hd]; [|by apply IH].
    apply Z.divide_pos_le in Hd; lia.
Qed.

(** X12. Every count [n = 2^k] that [Average] can compute ([0 <= k <=
    62]) is invertible modulo an odd prime limb modulus: [invN] (with
    [ModExp] and [MForm] as modelled) satisfies [(n * invN) mod q =
    MontgomeryOne q], no coprimality condition being needed. *)
Theorem average_count_is_invertible (s : SubRing) (k : Z) :
  Z.prime (Modulus s) ->
  2 < Modulus s < 2 ^ 64 ->
  0 <= k <= 62 ->
  (2 ^ k * invN (2 ^ k) s) mod Modulus s = MontgomeryOne (Modulus s).
Proof.
  intros Hq Hq2 Hk. pose proof (pow2_le_int k Hk).
  apply invN_inverse_of_unit; [done|lia|lia|].
  apply odd_prime_not_dividing_pow2; [done|lia|lia].
Qed.

End AverageExtras.

(** ** The further theorems on the test vectors *)

Section OnTestVectors2.
Import TestVectors TestVectors2.
#[local] Existing Instance encoder.
#[local] Existing Instance evaluator.

Lemma slice_ok_v0 : slice_ok h0 v0.
Proof. vm_compute. repeat split; (lia || discriminate). Qed.

Lemma slice_ok_scratch : slice_ok h0 scratch.
Proof. vm_compute. repeat split; (lia || discriminate). Qed.

Lemma new_encoder_witness :
  0 <= MaxSlots <= GoInt.int_max /\
  exists h' l,
    NewLinearTransformEncoder {[ 0 := v0 ]} h0 = (h', Ok l) /\
    diagonals l = {[ 0 := v0 ]} /\
    len (values l) = MaxSlots /\
    cap (values l) = MaxSlots /\
    elems h' (values l) = replicate (Z.to_nat MaxSlots) zero /\
    h0 !! sbase (values l) = None /\
    (forall b, b <> sbase (values l) -> h' !! b = h0 !! b) /\
    (forall s, slice_ok h0 s -> slice_ok h' s).
Proof.
  assert (HM : 0 <= MaxSlots <= GoInt.int_max) by (vm_compute; split; discriminate).
  split; [exact HM|].
  exact (new_encoder_allocates_scratch {[ 0 := v0 ]} h0 HM).
Defined.

Lemma rotation_periodic_witness :
  0 <= 2 <= 62 /\
  (-1) mod 2 ^ 2 = 3 mod 2 ^ 2 /\
  EncodeLinearTransformDiagonal l0 0 (-1) 1 2 [] h0
  = EncodeLinearTransformDiagonal l0 0 3 1 2 [] h0.
Proof.
  assert (Hk : 0 <= 2 <= 62) by lia.
  assert (Hm : (-1) mod 2 ^ 2 = 3 mod 2 ^ 2) by reflexivity.
  split; [exact Hk|]. split; [exact Hm|].
  exact (rotation_amount_periodic l0 0 (-1) 3 1 2 [] h0 Hk Hm).
Defined.

Lemma new_encoder_encodes_witness :
  0 <= MaxSlots <= GoInt.int_max /\
  ({[ 0 := v0 ]} : gmap Z slice) !! 0 = Some v0 /\
  slice_ok h0 v0 /\
  2 ^ 2 <= len v0 /\
  2 ^ 2 <= MaxSlots /\
  exists h1 l h2,
    NewLinearTransformEncoder {[ 0 := v0 ]} h0 = (h1, Ok l) /\
    EncodeLinearTransformDiagonal l 0 1 1 2 [] h1
    = (h2, Ok ([2; 3; 4; 1], None)).
Proof.
  assert (HM : 0 <= MaxSlots <= GoInt.int_max) by (vm_compute; split; discriminate).
  assert (Hi : ({[ 0 := v0 ]} : gmap Z slice) !! 0 = Some v0) by reflexivity.
  assert (Hlen : 2 ^ 2 <= len v0) by (vm_compute; discriminate).
  assert (Hfit : 2 ^ 2 <= MaxSlots) by (vm_compute; discriminate).
  split; [exact HM|]. split; [exact Hi|]. split; [exact slice_ok_v0|].
  split; [exact Hlen|]. split; [exact Hfit|].
  exact (new_encoder_encodes_rotation {[ 0 := v0 ]} h0 0 1 1 2 [] v0 HM Hi
           slice_ok_v0 ltac:(lia) Hlen Hfit).
Defined.

Lemma encode_after_earlier_call_witness :
  diagonals l0 !! 0 = Some v0 /\
  slice_ok h0 v0 /\
  slice_ok h0 (values l0) /\
  sbase v0 <> sbase (values l0) /\
  2 ^ 2 <= len v0 /\
  (1 mod 2 ^ 2 = 0 \/ 2 ^ 2 <= len (values l0)) /\
  snd (EncodeLinearTransformDiagonal l0 0 1 1 2 []
         (fst (EncodeLinearTransformDiagonal l0 0 3 5 2 [] h0)))
  = snd (EncodeLinearTransformDiagonal l0 0 1 1 2 [] h0).
Proof.
  assert (Hi : diagonals l0 !! 0 = Some v0) by reflexivity.
  assert (Hne : sbase v0 <> sbase (values l0)) by (vm_compute; lia).
  assert (Hlen : 2 ^ 2 <= len v0) by (vm_compute; discriminate).
  assert (Hfit : 1 mod 2 ^ 2 = 0 \/ 2 ^ 2 <= len (values l0))
    by (right; vm_compute; discriminate).
  split; [exact Hi|]. split; [exact slice_ok_v0|]. split; [exact slice_ok_scratch|].
  split; [exact Hne|]. split; [exact Hlen|]. split; [exact Hfit|].
  exact (encode_after_earlier_call l0 0 1 1 2 [] 0 3 5 2 [] h0 v0 Hi slice_ok_v0
           slice_ok_scratch eq_refl Hne ltac:(lia) Hlen Hfit).
Defined.

Lemma scratch_too_small_witness :
  0 <= 4 <= 62 /\
  1 mod 2 ^ 4 <> 0 /\
  cap (values l0) < 2 ^ 4 /\
  snd (EncodeLinearTransformDiagonal l0 0 1 1 4 [] h0) = Panic SliceBounds.
Proof.
  assert (Hk : 0 <= 4 <= 62) by lia.
  assert (Hr : 1 mod 2 ^ 4 <> 0) by (vm_compute; discriminate).
  assert (Hc : cap (values l0) < 2 ^ 4) by reflexivity.
  split; [exact Hk|]. split; [exact Hr|]. split; [exact Hc|].
  exact (scratch_too_small_panics l0 0 1 1 4 [] h0 Hk Hr Hc).
Defined.

Lemma short_diagonal_witness :
  diagonals l_short !! 0 = Some v_short /\
  slice_ok h_stale v_short /\
  slice_ok h_stale (values l_short) /\
  sbase v_short <> sbase (values l_short) /\
  len v_short < 2 ^ 2 <= len (values l_short) /\
  1 mod 2 ^ 2 <> 0 /\
  1 mod 2 ^ 2 <= len v_short /\
  exists h',
    EncodeLinearTransformDiagonal l_short 0 1 1 2 [] h_stale
    = (h', Ok ([2; 9; 9; 1], None)).
Proof.
  assert (Hi : diagonals l_short !! 0 = Some v_short) by reflexivity.
  assert (Hv : slice_ok h_stale v_short)
    by (vm_compute; repeat split; (lia || discriminate)).
  assert (Hb : slice_ok h_stale (values l_short))
    by (vm_compute; repeat split; (lia || discriminate)).
  assert (Hne : sbase v_short <> sbase (values l_short)) by (vm_compute; lia).
  assert (Hlen : len v_short < 2 ^ 2 <= len (values l_short))
    by (vm_compute; split; (reflexivity || discriminate)).
  assert (Hnz : 1 mod 2 ^ 2 <> 0) by (vm_compute; discriminate).
  assert (Hrv : 1 mod 2 ^ 2 <= len v_short) by (vm_compute; discriminate).
  split; [exact Hi|]. split; [exact Hv|]. split; [exact Hb|]. split; [exact Hne|].
  split; [exact Hlen|]. split; [exact Hnz|]. split; [exact Hrv|].
  exact (proj2 (short_diagonal_keeps_stale_entries l_short 0 1 1 2 [] h_stale
                  v_short Hi Hv Hb eq_refl Hne ltac:(lia) Hlen Hnz) Hrv).
Defined.

Lemma limbs_ct_in : limbs_upto (Z.min 1 1) ct_in.
Proof. repeat constructor. Qed.

Lemma limbs_ct_out : limbs_upto (Z.min 1 1) ct_out.
Proof. repeat constructor. Qed.

Lemma rings_cover_level_1 :
  Z.min 1 1 + 1 <= Z.of_nat (length SubRings) <= GoInt.int_max.
Proof. vm_compute. split; discriminate. Qed.

Lemma average_negative_batch_witness :
  st0 !! 0%nat = Some ct_in /\
  st0 !! 1%nat = Some ct_out /\
  Degree ct_in = 1 /\ Degree ct_out = 1 /\
  -1 < 0 /\ -1 <= LogSlots ct_in /\ LogSlots ct_in - -1 <= 62 /\
  Level ct_in = Ok 1 /\ Level ct_out = Ok 1 /\
  Average 0 (-1) 1 st0
  = (<[1%nat := scaled_ct (2 ^ (LogSlots ct_in - -1))
                  (Z.to_nat (Z.min 1 1 + 1)) ct_in ct_out]> st0,
     Panic NegativeShift).
Proof.
  assert (Hin : st0 !! 0%nat = Some ct_in) by reflexivity.
  assert (Hout : st0 !! 1%nat = Some ct_out) by reflexivity.
  assert (Hneg : -1 < 0) by lia.
  assert (Hle : -1 <= LogSlots ct_in) by (vm_compute; discriminate).
  assert (Hd : LogSlots ct_in - -1 <= 62) by (vm_compute; discriminate).
  split; [exact Hin|]. split; [exact Hout|].
  split; [reflexivity|]. split; [reflexivity|].
  split; [exact Hneg|]. split; [exact Hle|]. split; [exact Hd|].
  split; [reflexivity|]. split; [reflexivity|].
  exact (average_negative_batch_mutates_then_panics 0 1 (-1) st0 ct_in ct_out 1 1
           Hin Hout eq_refl eq_refl Hneg Hle Hd eq_refl eq_refl
           rings_cover_level_1 limbs_ct_in limbs_ct_out).
Defined.

Lemma average_in_place_witness :
  0%nat <> 1%nat /\
  st_pair !! 0%nat = Some ct_in /\
  st_pair !! 1%nat = Some ct_in /\
  Degree ct_in = 1 /\
  0 <= 1 <= LogSlots ct_in /\ LogSlots ct_in <= 62 /\
  Level ct_in = Ok 1 /\
  1 + 1 <= Z.of_nat (length SubRings) <= GoInt.int_max /\
  limbs_upto 1 ct_in /\
  exists ct',
    Average 0 1 0 st_pair
    = InnerSum 0 (2 ^ 1) (2 ^ (LogSlots ct_in - 1)) 0 (<[0%nat := ct']> st_pair) /\
    Average 0 1 1 st_pair
    = InnerSum 1 (2 ^ 1) (2 ^ (LogSlots ct_in - 1)) 1 (<[1%nat := ct']> st_pair).
Proof.
  assert (Hpq : 0%nat <> 1%nat) by lia.
  assert (Hp : st_pair !! 0%nat = Some ct_in) by reflexivity.
  assert (Hq : st_pair !! 1%nat = Some ct_in) by reflexivity.
  assert (Hlbs : 0 <= 1 <= LogSlots ct_in) by (vm_compute; split; discriminate).
  assert (Hls : LogSlots ct_in <= 62) by (vm_compute; discriminate).
  assert (Hr : 1 + 1 <= Z.of_nat (length SubRings) <= GoInt.int_max)
    by exact rings_cover_level_1.
  assert (Hw : limbs_upto 1 ct_in) by exact limbs_ct_in.
  split; [exact Hpq|]. split; [exact Hp|]. split; [exact Hq|].
  split; [reflexivity|]. split; [exact Hlbs|]. split; [exact Hls|].
  split; [reflexivity|]. split; [exact Hr|]. split; [exact Hw|].
  exact (average_in_place_as_on_a_copy 0 1 1 st_pair ct_in 1 Hpq Hp Hq eq_refl
           Hlbs Hls eq_refl Hr Hw).
Defined.

Lemma average_level_above_ring_witness :
  st_three !! 0%nat = Some ct_three /\
  st_three !! 1%nat = Some ct_three /\
  Degree ct_three = 1 /\
  1 <= LogSlots ct_three /\
  LogSlots ct_three - 1 <= GoInt.int_max /\
  Level ct_three = Ok 2 /\
  Z.of_nat (length SubRings) < Z.min 2 2 + 1 <= GoInt.int_max /\
  Average 0 1 1 st_three = (st_three, Panic SliceBounds).
Proof.
  assert (Hin : st_three !! 0%nat = Some ct_three) by reflexivity.
  assert (Hout : st_three !! 1%nat = Some ct_three) by reflexivity.
  assert (Hlbs : 1 <= LogSlots ct_three) by (vm_compute; discriminate).
  assert (Hls : LogSlots ct_three - 1 <= GoInt.int_max) by (vm_compute; discriminate).
  assert (Hr : Z.of_nat (length SubRings) < Z.min 2 2 + 1 <= GoInt.int_max)
    by (vm_compute; split; (reflexivity || discriminate)).
  split; [exact Hin|]. split; [exact Hout|]. split; [reflexivity|].
  split; [exact Hlbs|]. split; [exact Hls|]. split; [reflexivity|].
  split; [exact Hr|].
  exact (average_level_above_ring_panics 0 1 1 st_three ct_three ct_three 2 2
           Hin Hout eq_refl eq_refl Hlbs Hls eq_refl eq_refl Hr).
Defined.

Lemma average_count_witness :
  Z.prime (Modulus (17 : SubRing)) /\
  2 < Modulus (17 : SubRing) < 2 ^ 64 /\
  0 <= 2 <= 62 /\
  (2 ^ 2 * invN (2 ^ 2) (17 : SubRing)) mod Modulus (17 : SubRing)
  = MontgomeryOne (Modulus (17 : SubRing)).
Proof.
  assert (Hq : Z.prime (Modulus (17 : SubRing))) by exact prime_17.
  assert (Hq2 : 2 < Modulus (17 : SubRing) < 2 ^ 64) by (split; reflexivity).
  assert (Hk : 0 <= 2 <= 62) by lia.
  split; [exact Hq|]. split; [exact Hq2|]. split; [exact Hk|].
  exact (average_count_is_invertible (17 : SubRing) 2 Hq Hq2 Hk).
Defined.

End OnTestVectors2.

